(** * Memory search managers of openclaw: provider cache, fallback decorator
      and the engram subprocess adapter

    Shallow embedding of
    - [src/memory/search-manager.ts] ([getMemorySearchManager],
      [FallbackMemoryManager], [buildPrimaryCacheKey], [stableSerialize],
      [sortValue]) and
    - [src/memory/engram-manager.ts] ([EngramMemoryManager]).

    JavaScript values are a tagged union, objects keep their properties in
    insertion order, asynchronous methods are run to completion one after the
    other (the runtime is single threaded and the model does not interleave
    two calls), and every answer of the outside world (a subprocess, a
    provider, a factory) is an explicit input of the step that asks for it. *)

From Stdlib Require Import Ascii String OrdersEx.
From stdpp Require Import base option list strings gmap sorting pretty.

Local Open Scope string_scope.
Local Open Scope Z_scope.

(** ** The platform: numbers and collation

    The code never computes with numbers, it only passes them on, prints them
    and coerces to them; IEEE doubles are therefore an interface. The
    conversions are the ones of ECMAScript. *)
Class JsNumber := {
  number : Type;
  number_eq_dec :: EqDecision number;
  NaN : number;
  number_of_Z : Z → number;
  number_is_finite : number → bool;
  (* ToBoolean: false for zero and NaN *)
  number_to_boolean : number → bool;
  (* Number::toString *)
  number_to_string : number → string;
  (* StringToNumber, which also reads the numerals of JSON *)
  string_to_number : string → number;
}.

(** [String.prototype.localeCompare]: negative, zero or positive. *)
Class Collator := localeCompare : string → string → Z.

(** ** Strings *)

Definition char (n : nat) : string := String (ascii_of_nat n) EmptyString.
Definition dquote : string := char 34.
Definition backslash : string := char 92.

Definition code (c : ascii) : N := N_of_ascii c.

Definition hex_digit (n : N) : string :=
  if (n <? 10)%N then String (ascii_of_N (48 + n)) EmptyString
  else String (ascii_of_N (87 + n)) EmptyString.

(** One character of [QuoteJSONString]. Strings hold UTF-8 text, the bytes of
    a character outside ASCII are copied. *)
Definition quote_char (c : ascii) : string :=
  let n := code c in
  if (n =? 8)%N then backslash +:+ "b"
  else if (n =? 9)%N then backslash +:+ "t"
  else if (n =? 10)%N then backslash +:+ "n"
  else if (n =? 12)%N then backslash +:+ "f"
  else if (n =? 13)%N then backslash +:+ "r"
  else if (n =? 34)%N then backslash +:+ dquote
  else if (n =? 92)%N then backslash +:+ backslash
  else if (n <? 32)%N then
    backslash +:+ "u00" +:+ hex_digit (n `div` 16) +:+ hex_digit (n `mod` 16)
  else String c EmptyString.

(** JSON text written with apostrophes for quotation marks. *)
Fixpoint json_text (s : string) : string :=
  match s with
  | EmptyString => EmptyString
  | String c r =>
      String (if (N_of_ascii c =? 39)%N then ascii_of_nat 34 else c) (json_text r)
  end.

Fixpoint quote_chars (s : string) : string :=
  match s with
  | EmptyString => EmptyString
  | String c r => quote_char c +:+ quote_chars r
  end.

Definition QuoteJSONString (s : string) : string :=
  dquote +:+ quote_chars s +:+ dquote.

(** An identifier without a colon. *)
Definition colon_free (s : string) : bool :=
  forallb (λ c, negb (N_of_ascii c =? 58)%N) (list_ascii_of_string s).

(** ** Sorting

    [Array.prototype.toSorted] is stable: of two elements that the comparator
    does not separate, the one that came first stays first. *)
Fixpoint insert_sorted {A} (le : A → A → bool) (x : A) (l : list A) : list A :=
  match l with
  | [] => [x]
  | y :: l' => if le x y then x :: l else y :: insert_sorted le x l'
  end.

Definition stable_sort {A} (le : A → A → bool) (l : list A) : list A :=
  foldr (insert_sorted le) [] l.

(** The order of a comparison, restricted to a collection of elements. *)
Definition le_on {A} (le : A → A → bool) (K : list A) (a b : A) : Prop :=
  a ∈ K ∧ b ∈ K ∧ le a b = true.

Definition toSorted (comparefn : string → string → Z) (l : list string) : list string :=
  stable_sort (λ a b, bool_decide (comparefn a b ≤ 0)) l.

(** ** Property lists

    An object is the list of its own properties in insertion order, without
    two entries for one key. *)
Section props.
Context {A : Type}.

Fixpoint get_own (props : list (string * A)) (key : string) : option A :=
  match props with
  | [] => None
  | (k, v) :: rest => if decide (k = key) then Some v else get_own rest key
  end.

(** [CreateDataProperty]: a key that exists keeps its place. *)
Fixpoint set_own (props : list (string * A)) (key : string) (v : A) : list (string * A) :=
  match props with
  | [] => [(key, v)]
  | (k, w) :: rest =>
      if decide (k = key) then (k, v) :: rest else (k, w) :: set_own rest key v
  end.

Fixpoint digits_value (acc : N) (s : string) : option N :=
  match s with
  | EmptyString => Some acc
  | String c r =>
      let n := code c in
      if ((48 <=? n) && (n <=? 57))%N then digits_value (acc * 10 + (n - 48))%N r
      else None
  end.

(** An array index is a canonical numeral below 2^32 - 1. *)
Definition array_index (s : string) : option N :=
  match s with
  | EmptyString => None
  | String c r =>
      if (code c =? 48)%N then (if decide (r = EmptyString) then Some 0%N else None)
      else match digits_value 0 s with
           | Some n => if (n <? 4294967295)%N then Some n else None
           | None => None
           end
  end.

Definition index_le (p q : string * A) : bool :=
  match array_index p.1, array_index q.1 with
  | Some i, Some j => (i <=? j)%N
  | _, _ => true
  end.

(** [OrdinaryOwnPropertyKeys]: array indices in ascending order, then the
    other keys in insertion order. *)
Definition own_entries (props : list (string * A)) : list (string * A) :=
  stable_sort index_le (filter (λ p, is_Some (array_index p.1)) props)
  ++ filter (λ p, ¬ is_Some (array_index p.1)) props.

Definition Object_keys (props : list (string * A)) : list string :=
  (own_entries props).*1.

Definition Object_fromEntries (entries : list (string * A)) : list (string * A) :=
  foldl (λ o kv, set_own o kv.1 kv.2) [] entries.
End props.

(** ** Values *)
Section values.
Context `{JsNumber}.

Unset Elimination Schemes.
Inductive value : Type :=
| JUndefined
| JNull
| JBool (b : bool)
| JNumber (n : number)
| JString (s : string)
| JArray (elems : list value)
| JObject (props : list (string * value)).
Set Elimination Schemes.

(** Every object of the value has pairwise different keys. *)
Fixpoint wf_value (v : value) : bool :=
  match v with
  | JArray elems => forallb wf_value elems
  | JObject props =>
      bool_decide (NoDup props.*1) && forallb (λ kv, wf_value kv.2) props
  | _ => true
  end.

(** All property names of a value, at any depth. *)
Fixpoint all_keys (v : value) : list string :=
  match v with
  | JArray elems => concat (map all_keys elems)
  | JObject props => props.*1 ++ concat (map (λ kv, all_keys kv.2) props)
  | _ => []
  end.

(** ** JSON.stringify *)
Fixpoint SerializeJSONProperty (v : value) : option string :=
  match v with
  | JUndefined => None
  | JNull => Some "null"
  | JBool b => Some (if b then "true" else "false")
  | JNumber n => Some (if number_is_finite n then number_to_string n else "null")
  | JString s => Some (QuoteJSONString s)
  | JArray elems =>
      let parts := map (λ e, default "null" (SerializeJSONProperty e)) elems in
      Some ("[" +:+ String.concat "," parts +:+ "]")
  | JObject props =>
      let serialized := map (λ kv, (kv.1, SerializeJSONProperty kv.2)) props in
      let parts :=
        omap (λ kv, (λ s, QuoteJSONString kv.1 +:+ ":" +:+ s) <$> kv.2)
             (own_entries serialized) in
      Some ("{" +:+ String.concat "," parts +:+ "}")
  end.

(** [undefined] when the value itself is [undefined]. *)
Definition JSON_stringify (v : value) : option string := SerializeJSONProperty v.

(** A template literal prints [undefined] by name. *)
Definition template (s : option string) : string := default "undefined" s.

(** ** The cache key *)
Context `{Collator}.

(** The keys are sorted first; [value[key]] is then read from the
    properties whose values went through [sortValue] already, which is the
    value the source computes since [sortValue] has no effect. *)
Fixpoint sortValue (v : value) : value :=
  match v with
  | JArray elems => JArray (map sortValue elems)
  | JObject props =>
      let sorted_values := map (λ kv, (kv.1, sortValue kv.2)) props in
      let sortedEntries :=
        map (λ key, (key, default JUndefined (get_own sorted_values key)))
            (toSorted localeCompare (Object_keys props)) in
      JObject (Object_fromEntries sortedEntries)
  | _ => v
  end.

Definition stableSerialize (v : value) : option string :=
  JSON_stringify (sortValue v).

Definition buildPrimaryCacheKey (agentId backend : string) (config : value) : string :=
  agentId +:+ ":" +:+ backend +:+ ":" +:+ template (stableSerialize config).

(** Structural equality up to the order in which keys were inserted: the
    same scalars, arrays equal position by position, objects with the same
    keys and, under each key, values equal in this sense. *)
Fixpoint same_config (a b : value) : bool :=
  match a, b with
  | JUndefined, JUndefined => true
  | JNull, JNull => true
  | JBool x, JBool y => bool_decide (x = y)
  | JNumber x, JNumber y => bool_decide (x = y)
  | JString x, JString y => bool_decide (x = y)
  | JArray xs, JArray ys =>
      (fix go (xs ys : list value) : bool :=
         match xs, ys with
         | [], [] => true
         | x :: xs', y :: ys' => same_config x y && go xs' ys'
         | _, _ => false
         end) xs ys
  | JObject ps, JObject qs =>
      bool_decide (length ps = length qs)
      && forallb (λ kv, match get_own qs kv.1 with
                        | Some w => same_config kv.2 w
                        | None => false
                        end) ps
  | _, _ => false
  end.

(** The comparator is a strict total order on the keys [K]: it orders two
    keys the same way from both sides, it is transitive, and it returns
    zero for no two different keys of [K]. *)
Record strict_collation (K : list string) : Prop := {
  collation_flip : ∀ a b, a ∈ K → b ∈ K →
    localeCompare a b < 0 ↔ 0 < localeCompare b a;
  collation_trans : ∀ a b c, a ∈ K → b ∈ K → c ∈ K →
    localeCompare a b ≤ 0 → localeCompare b c ≤ 0 → localeCompare a c ≤ 0;
  collation_separates : ∀ a b, a ∈ K → b ∈ K → localeCompare a b = 0 → a = b;
}.
End values.

(** ** JSON.parse

    The grammar of ECMA-404. A numeral is handed to [string_to_number] as it
    is written; a [\u] escape yields a UTF-16 code unit, two of them that form
    a surrogate pair are one character, and characters are stored in UTF-8. *)
Section json_parse.
Context `{JsNumber}.

Definition is_ws (c : ascii) : bool :=
  let n := code c in ((n =? 32) || (n =? 9) || (n =? 10) || (n =? 13))%N.

Definition is_digit (c : ascii) : bool :=
  let n := code c in ((48 <=? n) && (n <=? 57))%N.

Fixpoint skip_ws (s : string) : string :=
  match s with
  | String c r => if is_ws c then skip_ws r else s
  | EmptyString => s
  end.

Definition hex_value (c : ascii) : option N :=
  let n := code c in
  if ((48 <=? n) && (n <=? 57))%N then Some (n - 48)%N
  else if ((65 <=? n) && (n <=? 70))%N then Some (n - 55)%N
  else if ((97 <=? n) && (n <=? 102))%N then Some (n - 87)%N
  else None.

Definition hex4 (s : string) : option (N * string) :=
  match s with
  | String a (String b (String c (String d r))) =>
      x ← hex_value a; y ← hex_value b; z ← hex_value c; w ← hex_value d;
      Some (((x * 16 + y) * 16 + z) * 16 + w, r)%N
  | _ => None
  end.

(** What a string literal denotes, piece by piece: a byte that was written
    as it is, or the code unit of an escape. *)
Inductive piece := Byte (c : ascii) | Unit (u : N).

Definition simple_escape (c : ascii) : option N :=
  let n := code c in
  if (n =? 34)%N then Some 34%N          (* quotation mark *)
  else if (n =? 92)%N then Some 92%N     (* reverse solidus *)
  else if (n =? 47)%N then Some 47%N     (* solidus *)
  else if (n =? 98)%N then Some 8%N      (* b *)
  else if (n =? 102)%N then Some 12%N    (* f *)
  else if (n =? 110)%N then Some 10%N    (* n *)
  else if (n =? 114)%N then Some 13%N    (* r *)
  else if (n =? 116)%N then Some 9%N     (* t *)
  else None.

(** The input after the opening quotation mark. The fuel bounds the number
    of pieces and is the length of the input. *)
Fixpoint scan_string (fuel : nat) (s : string) : option (list piece * string) :=
  match fuel with
  | O => None
  | S fuel =>
      match s with
      | EmptyString => None
      | String c r =>
          if (code c =? 34)%N then Some ([], r)
          else if (code c =? 92)%N then
            match r with
            | EmptyString => None
            | String e r' =>
                if (code e =? 117)%N then
                  '(u, r'') ← hex4 r';
                  '(ps, rest) ← scan_string fuel r'';
                  Some (Unit u :: ps, rest)
                else
                  u ← simple_escape e;
                  '(ps, rest) ← scan_string fuel r';
                  Some (Unit u :: ps, rest)
            end
          else if (code c <? 32)%N then None
          else '(ps, rest) ← scan_string fuel r; Some (Byte c :: ps, rest)
      end
  end.

Definition byte (n : N) : ascii := ascii_of_N n.

Definition utf8 (cp : N) : list ascii :=
  (if cp <? 128 then [byte cp]
   else if cp <? 2048 then [byte (192 + cp `div` 64); byte (128 + cp `mod` 64)]
   else if cp <? 65536 then
     [byte (224 + cp `div` 4096); byte (128 + (cp `div` 64) `mod` 64);
      byte (128 + cp `mod` 64)]
   else
     [byte (240 + cp `div` 262144); byte (128 + (cp `div` 4096) `mod` 64);
      byte (128 + (cp `div` 64) `mod` 64); byte (128 + cp `mod` 64)])%N.

Definition is_high (u : N) : bool := ((55296 <=? u) && (u <=? 56319))%N.
Definition is_low (u : N) : bool := ((56320 <=? u) && (u <=? 57343))%N.

Fixpoint bytes_of_pieces (ps : list piece) : list ascii :=
  match ps with
  | [] => []
  | Byte c :: rest => c :: bytes_of_pieces rest
  | Unit u :: rest =>
      match rest with
      | Unit l :: rest' =>
          if is_high u && is_low l
          then utf8 (65536 + (u - 55296) * 1024 + (l - 56320))%N ++ bytes_of_pieces rest'
          else utf8 u ++ bytes_of_pieces rest
      | _ => utf8 u ++ bytes_of_pieces rest
      end
  end.

Definition parse_string (s : string) : option (string * string) :=
  '(ps, rest) ← scan_string (String.length s) s;
  Some (string_of_list_ascii (bytes_of_pieces ps), rest).

(** Numerals: an optional minus, then zero or digits that do not start
    with zero, then an optional fraction (a point and digits) and an
    optional exponent (e or E, an optional sign, digits). *)
Fixpoint span_digits (s : string) : string * string :=
  match s with
  | String c r =>
      if is_digit c then let '(d, rest) := span_digits r in (String c d, rest)
      else (EmptyString, s)
  | EmptyString => (EmptyString, EmptyString)
  end.

Definition scan_sign (allow_plus : bool) (s : string) : string * string :=
  match s with
  | String c r =>
      if (code c =? 45)%N || (allow_plus && (code c =? 43)%N)
      then (String c EmptyString, r) else (EmptyString, s)
  | EmptyString => (EmptyString, s)
  end.

Definition scan_int (s : string) : option (string * string) :=
  match s with
  | String c r =>
      if (code c =? 48)%N then Some (String c EmptyString, r)
      else if is_digit c then Some (span_digits s)
      else None
  | EmptyString => None
  end.

Definition scan_frac (s : string) : option (string * string) :=
  match s with
  | String c r =>
      if (code c =? 46)%N then
        let '(d, rest) := span_digits r in
        if decide (d = EmptyString) then None else Some (String c d, rest)
      else Some (EmptyString, s)
  | EmptyString => Some (EmptyString, s)
  end.

Definition scan_exp (s : string) : option (string * string) :=
  match s with
  | String c r =>
      if ((code c =? 101) || (code c =? 69))%N then
        let '(sg, r1) := scan_sign true r in
        let '(d, rest) := span_digits r1 in
        if decide (d = EmptyString) then None else Some (String c (sg +:+ d), rest)
      else Some (EmptyString, s)
  | EmptyString => Some (EmptyString, s)
  end.

Definition scan_number (s : string) : option (string * string) :=
  let '(sg, r0) := scan_sign false s in
  '(i, r1) ← scan_int r0;
  '(f, r2) ← scan_frac r1;
  '(e, r3) ← scan_exp r2;
  Some (sg +:+ i +:+ f +:+ e, r3).

Fixpoint strip_prefix (word s : string) : option string :=
  match word with
  | EmptyString => Some s
  | String c word' =>
      match s with
      | String d r => if (code c =? code d)%N then strip_prefix word' r else None
      | EmptyString => None
      end
  end.

Definition expect (word : string) (v : value) (s : string) : option (value * string) :=
  rest ← strip_prefix word s; Some (v, rest).

Definition first_is (n : N) (s : string) : option string :=
  match s with
  | String c r => if (code c =? n)%N then Some r else None
  | EmptyString => None
  end.

(** Values, the elements of an array after its bracket and the members of
    an object after its brace. Every call that recurses has read a
    character, except an element or a member that starts, so twice the
    length of the input is fuel enough. *)
Fixpoint parse_value (fuel : nat) (s : string) : option (value * string) :=
  match fuel with
  | O => None
  | S fuel =>
      let s := skip_ws s in
      match s with
      | EmptyString => None
      | String c r =>
          let n := code c in
          if (n =? 91)%N then
            match first_is 93 (skip_ws r) with
            | Some rest => Some (JArray [], rest)
            | None => parse_elements fuel r []
            end
          else if (n =? 123)%N then
            match first_is 125 (skip_ws r) with
            | Some rest => Some (JObject [], rest)
            | None => parse_members fuel r []
            end
          else if (n =? 34)%N then
            '(str, rest) ← parse_string r; Some (JString str, rest)
          else if (n =? 116)%N then expect "true" (JBool true) s
          else if (n =? 102)%N then expect "false" (JBool false) s
          else if (n =? 110)%N then expect "null" JNull s
          else '(lit, rest) ← scan_number s; Some (JNumber (string_to_number lit), rest)
      end
  end
with parse_elements (fuel : nat) (s : string) (acc : list value)
    : option (value * string) :=
  match fuel with
  | O => None
  | S fuel =>
      '(v, r) ← parse_value fuel s;
      let r := skip_ws r in
      match first_is 44 r with
      | Some rest => parse_elements fuel rest (v :: acc)
      | None =>
          rest ← first_is 93 r;
          Some (JArray (rev (v :: acc)), rest)
      end
  end
with parse_members (fuel : nat) (s : string) (acc : list (string * value))
    : option (value * string) :=
  match fuel with
  | O => None
  | S fuel =>
      r0 ← first_is 34 (skip_ws s);
      '(key, r1) ← parse_string r0;
      r2 ← first_is 58 (skip_ws r1);
      '(v, r3) ← parse_value fuel r2;
      let r3 := skip_ws r3 in
      (* a key that comes again replaces the value and keeps the place *)
      let acc := set_own acc key v in
      match first_is 44 r3 with
      | Some rest => parse_members fuel rest acc
      | None =>
          rest ← first_is 125 r3;
          Some (JObject acc, rest)
      end
  end.

(** [None] stands for the [SyntaxError]. *)
Definition JSON_parse (text : string) : option value :=
  '(v, rest) ← parse_value (2 * String.length text + 2) text;
  if decide (skip_ws rest = EmptyString) then Some v else None.
(** A parse that succeeds with some fuel succeeds with twice the number of
    characters it reads. *)
Definition enough (parse : nat → string → option (value * string)) (n : nat) : Prop :=
  ∀ s v rest, parse n s = Some (v, rest) →
    (String.length rest < String.length s)%nat
    ∧ ∀ m, (2 * (String.length s - String.length rest) ≤ m)%nat →
        parse m s = Some (v, rest).
End json_parse.

(** ** Promises and coercions *)

(** How an asynchronous call settles. An exception is represented by the
    message the code reads from it
    ([err instanceof Error ? err.message : String(err)]). *)
Inductive outcome (A : Type) : Type :=
| Resolved (a : A)
| Rejected (message : string).
Arguments Resolved {A} a.
Arguments Rejected {A} message.

Definition bind_outcome {A B} (m : outcome A) (k : A → outcome B) : outcome B :=
  match m with
  | Resolved a => k a
  | Rejected e => Rejected e
  end.

Notation "x ⇐ m ;; k" := (bind_outcome m (λ x, k))
  (at level 100, m at next level, k at level 200, right associativity).

Definition is_rejected {A} (m : outcome A) : bool :=
  match m with Rejected _ => true | Resolved _ => false end.

Section coercions.
Context `{JsNumber}.

Definition is_nullish (v : value) : bool :=
  match v with JUndefined | JNull => true | _ => false end.

(** [a ?? b] *)
Definition nullish_or (a b : value) : value := if is_nullish a then b else a.

(** ToBoolean *)
Definition truthy (v : value) : bool :=
  match v with
  | JUndefined | JNull => false
  | JBool b => b
  | JNumber n => number_to_boolean n
  | JString s => negb (bool_decide (s = EmptyString))
  | JArray _ | JObject _ => true
  end.

(** [v === false] *)
Definition is_false (v : value) : bool :=
  match v with JBool false => true | _ => false end.

(** [s || d] on strings *)
Definition string_or (s d : string) : string :=
  if decide (s = EmptyString) then d else s.

(** [v.key] where [v] is neither [undefined] nor [null]. The names read in
    this code ([data], [results], [content], [status], [backend_available],
    [id], [path], [score], [snippet]) are on no prototype, so only an
    object has them. *)
Definition member (v : value) (key : string) : value :=
  match v with
  | JObject props => default JUndefined (get_own props key)
  | _ => JUndefined
  end.

(** [v.key], a [TypeError] on [undefined] and [null] *)
Definition get_prop (v : value) (key : string) : outcome value :=
  if is_nullish v
  then Rejected ("Cannot read properties of " +:+ (if v is JNull then "null" else "undefined")
                 +:+ " (reading '" +:+ key +:+ "')")
  else Resolved (member v key).

(** [v?.key] *)
Definition opt_chain (v : value) (key : string) : value :=
  if is_nullish v then JUndefined else member v key.

(** The message of the [TypeError] of ToPrimitive. *)
Definition no_primitive_value : string := "Cannot convert object to primitive value".

(** ToString, as [String(v)] and [Array.prototype.join] apply it. The
    values that this program converts come out of [JSON.parse]: an array or
    an object has the prototype of its kind and its own properties are data.
    ToPrimitive calls [toString] and then [valueOf]. For an array that is
    [Array.prototype.toString], which joins the elements with a comma. For
    an object it is [Object.prototype.toString], unless the object has an
    own property of that name: that property is not callable, [valueOf]
    gives the object back, and the conversion raises a [TypeError]. *)
Fixpoint ToString (v : value) : outcome string :=
  match v with
  | JUndefined => Resolved "undefined"
  | JNull => Resolved "null"
  | JBool b => Resolved (if b then "true" else "false")
  | JNumber n => Resolved (number_to_string n)
  | JString s => Resolved s
  | JArray elems =>
      pieces ⇐ (fix each (es : list value) : outcome (list string) :=
                  match es with
                  | [] => Resolved []
                  | e :: rest =>
                      piece ⇐ (if is_nullish e then Resolved EmptyString else ToString e);;
                      more ⇐ each rest;;
                      Resolved (piece :: more)
                  end) elems;;
      Resolved (String.concat "," pieces)
  | JObject props =>
      match get_own props "toString" with
      | Some _ => Rejected no_primitive_value
      | None => Resolved "[object Object]"
      end
  end.

(** The text of one element in [Array.prototype.join]. *)
Definition element_text (e : value) : outcome string :=
  if is_nullish e then Resolved EmptyString else ToString e.

Fixpoint element_texts (elems : list value) : outcome (list string) :=
  match elems with
  | [] => Resolved []
  | e :: rest =>
      piece ⇐ element_text e;;
      more ⇐ element_texts rest;;
      Resolved (piece :: more)
  end.

Definition Array_join (sep : string) (elems : list value) : outcome string :=
  pieces ⇐ element_texts elems;;
  Resolved (String.concat sep pieces).

(** ToNumber, as [Number(v)] applies it; an array or an object is first
    turned into a primitive, which is its string or a [TypeError] *)
Definition ToNumber (v : value) : outcome number :=
  match v with
  | JUndefined => Resolved NaN
  | JNull => Resolved (number_of_Z 0)
  | JBool b => Resolved (number_of_Z (if b then 1 else 0))
  | JNumber n => Resolved n
  | JString s => Resolved (string_to_number s)
  | JArray _ | JObject _ => s ⇐ ToString v;; Resolved (string_to_number s)
  end.

(** A value that has a primitive: not an object with an own [toString], nor
    an array that holds one. *)
Fixpoint convertible (v : value) : bool :=
  match v with
  | JArray elems => forallb convertible elems
  | JObject props =>
      match get_own props "toString" with
      | Some _ => false
      | None => true
      end
  | _ => true
  end.

(** [{...obj, ...more}] *)
Definition spread (obj more : list (string * value)) : list (string * value) :=
  foldl (λ o kv, set_own o kv.1 kv.2) obj (own_entries more).
End coercions.

(** ** The capability contract ([src/memory/types.ts], as far as this code
    reads it) *)
Section types.
Context `{JsNumber}.

Record MemorySearchResult := {
  path : string;
  startLine : number;
  endLine : number;
  score : number;
  snippet : string;
  source : string;
}.

Record ReadFileParams := {
  relPath : string;
  from : option number;
  lines : option number;
}.

(** The answer of [readFile]; its second field is [path] in the source. *)
Record FileText := { text : string; file_path : string }.

Record MemoryEmbeddingProbeResult := { ok : bool; error : option string }.
End types.

(** ** The engram adapter ([src/memory/engram-manager.ts]) *)
Module Engram.
Section engram.
Context `{JsNumber}.

Definition DEFAULT_COMMAND : string := "engram-openclaw-adapter".
Definition DEFAULT_TIMEOUT_MS : number := number_of_Z 4000.

(** The two shapes of [CreateParams] give the same three settings; the
    workspace directory is resolved by the caller. *)
Record CreateParams := {
  param_workspaceDir : string;
  param_command : option string;
  param_timeoutMs : option number;
}.

Record EngramMemoryManager := {
  workspaceDir : string;
  command : string;
  timeoutMs : number;
}.

(** What the promise of [exec] sees first of the child process: the
    [error] event (the process could not be spawned), the timer, or the
    [close] event with the exit code ([None] when a signal ended the
    process) and all that was written to the two streams. *)
Inductive process :=
| SpawnError (message : string)
| TimedOut
| Closed (exit_code : option Z) (stdout stderr : string).

(** The object written to the standard input of the child. *)
Definition exec_request (m : EngramMemoryManager) (payload : list (string * value))
    : option string :=
  JSON_stringify (JObject (spread [("workspaceDir", JString (workspaceDir m))] payload)).

Definition exit_code_text (c : option Z) : string :=
  match c with Some n => pretty n | None => "null" end.

Definition exec (subcommand : string) (p : process) : outcome value :=
  match p with
  | SpawnError message => Rejected message
  | TimedOut => Rejected ("engram adapter timeout (" +:+ subcommand +:+ ")")
  | Closed exit_code stdout stderr =>
      if decide (exit_code ≠ Some 0) then
        Rejected (string_or stderr ("engram adapter exited with code " +:+ exit_code_text exit_code))
      else
        match JSON_parse (string_or stdout "{}") with
        | Some parsed => Resolved parsed
        | None => Rejected "engram adapter returned invalid JSON"
        end
  end.

Definition new_manager (params : CreateParams) : EngramMemoryManager :=
  {| workspaceDir := param_workspaceDir params;
     command := string_or (default EmptyString (param_command params)) DEFAULT_COMMAND;
     timeoutMs := default DEFAULT_TIMEOUT_MS (param_timeoutMs params) |}.

(** [create]; [None] is the [null] handle. The [catch] logs and returns
    [null]. *)
Definition create (params : CreateParams) (health_process : process)
    : outcome (option EngramMemoryManager) :=
  let manager := new_manager params in
  match exec "health" health_process with
  | Resolved health =>
      if negb (truthy health)
         || is_false (opt_chain (member health "status") "backend_available")
      then Resolved None
      else Resolved (Some manager)
  | Rejected _ => Resolved None
  end.

Definition search_payload (query : string) (opts : option (list (string * value)))
    : list (string * value) :=
  spread [("query", JString query)] (default [] opts).

Definition map_entry (entry : value) : outcome MemorySearchResult :=
  id ⇐ get_prop entry "id";;
  p ⇐ (if is_nullish id then get_prop entry "path" else Resolved JUndefined);;
  path_text ⇐ ToString (nullish_or id (nullish_or p (JString "MEMORY.md")));;
  sc ⇐ get_prop entry "score";;
  score_number ⇐ ToNumber (nullish_or sc (JNumber (number_of_Z 0)));;
  sn ⇐ get_prop entry "snippet";;
  snippet_text ⇐ ToString (nullish_or sn (JString EmptyString));;
  Resolved
    {| path := path_text;
       startLine := number_of_Z 1;
       endLine := number_of_Z 1;
       score := score_number;
       snippet := snippet_text;
       source := "memory" |}.

Fixpoint map_entries (entries : list value) : outcome (list MemorySearchResult) :=
  match entries with
  | [] => Resolved []
  | e :: rest =>
      r ⇐ map_entry e;;
      rs ⇐ map_entries rest;;
      Resolved (r :: rs)
  end.

(** [search]; the child process answers the request
    [exec_request m (search_payload query opts)]. *)
Definition search (m : EngramMemoryManager) (query : string)
    (opts : option (list (string * value))) (p : process)
    : outcome (list MemorySearchResult) :=
  response ⇐ exec "search" p;;
  data ⇐ get_prop response "data";;
  match nullish_or (opt_chain data "results") (JArray []) with
  | JArray results => map_entries results
  | _ => Rejected "results.map is not a function"
  end.

Definition readFile (m : EngramMemoryManager) (params : ReadFileParams) (p : process)
    : outcome FileText :=
  response ⇐ exec "fetch" p;;
  data ⇐ get_prop response "data";;
  match nullish_or (opt_chain data "content") (JArray []) with
  | JArray content =>
      joined ⇐ Array_join (String (ascii_of_nat 10) EmptyString) content;;
      Resolved {| text := joined; file_path := relPath params |}
  | _ => Rejected "lines.join is not a function"
  end.

Definition sync (m : EngramMemoryManager) (p : process) : outcome unit :=
  _ ⇐ exec "flush" p;; Resolved ().

Definition probeEmbeddingAvailability (m : EngramMemoryManager)
    : outcome MemoryEmbeddingProbeResult :=
  Resolved {| ok := true; error := None |}.

Definition probeVectorAvailability (m : EngramMemoryManager) : outcome bool :=
  Resolved true.

Definition close (m : EngramMemoryManager) : outcome unit := Resolved ().

Definition status (m : EngramMemoryManager) : list (string * value) :=
  [("backend", JString "engram");
   ("provider", JString "engram");
   ("workspaceDir", JString (workspaceDir m));
   ("custom", JObject [("engram", JObject [("command", JString (command m))])])].
(** ** What the specification says of the adapter *)

(** The request completes with a response: the child closes with exit code
    0 and its output, [{}] for no output at all, is JSON. *)
Definition completes_with (p : process) (response : value) : Prop :=
  ∃ stdout stderr,
    p = Closed (Some 0) stdout stderr ∧ JSON_parse (string_or stdout "{}") = Some response.

(** [status.backend_available] of a response, [undefined] where there is
    none. *)
Definition backend_available (response : value) : value :=
  member (member response "status") "backend_available".

(** The five ways in which the health check declines. *)
Inductive declines : process → Prop :=
| cannot_spawn message : declines (SpawnError message)
| times_out : declines TimedOut
| exits_non_zero exit_code stdout stderr :
    exit_code ≠ Some 0 → declines (Closed exit_code stdout stderr)
| invalid_payload stdout stderr :
    JSON_parse (string_or stdout "{}") = None → declines (Closed (Some 0) stdout stderr)
| backend_unavailable p response :
    completes_with p response → backend_available response = JBool false → declines p.





(** [data.content] of a response, [undefined] where there is none. *)
Definition content_of (response : value) : value :=
  member (member response "data") "content".
End engram.
End Engram.

(** ** The fallback decorator and the provider cache
    ([src/memory/search-manager.ts]) *)
Module SearchManager.
Section search_manager.
Context `{JsNumber} `{Collator}.

(** A provider behind the capability contract (a qmd manager, an engram
    manager, the builtin index) is known by its identity only; what it
    answers is an input of the step that calls it. A decorator is known by
    its address in the store of instances. *)
Definition provider := nat.
Definition address := nat.

Inductive role := Primary | Fallback.

Inductive call :=
| CallSearch (query : string) (opts : value)
| CallReadFile (params : ReadFileParams)
| CallStatus
| CallSync (params : value)
| CallProbeEmbedding
| CallProbeVector
| CallClose.

(** What a step does to the outside, in the order it does it. *)
Inductive event :=
| Invoke (r : role) (h : provider) (c : call)
| FallbackFactory
| OnClose (cacheKey : string)
| Create (backend : string)
| IndexGet.

(** The answers of one provider during one step. A method that the
    contract makes optional is [None] when the provider lacks it. *)
Record answers := {
  on_search : outcome (list MemorySearchResult);
  on_readFile : outcome FileText;
  on_status : list (string * value);
  on_sync : option (outcome unit);
  on_probeEmbedding : outcome MemoryEmbeddingProbeResult;
  on_probeVector : outcome bool;
  on_close : option (outcome unit);
}.

Record env := {
  of_primary : answers;
  fallbackFactory : outcome (option provider);
  of_fallback : answers;
}.

(** The fields of an instance. [onClose] is the closure
    [() => PRIMARY_MANAGER_CACHE.delete(cacheKey)], kept as its key. *)
Record FallbackMemoryManager := {
  backendName : string;
  primary : provider;
  onClose : option string;
  fallback : option provider;
  primaryFailed : bool;
  lastError : option string;
  cacheEvicted : bool;
}.

Definition new_FallbackMemoryManager (name : string) (p : provider)
    (on_close : option string) : FallbackMemoryManager :=
  {| backendName := name; primary := p; onClose := on_close;
     fallback := None; primaryFailed := false; lastError := None;
     cacheEvicted := false |}.

Definition with_fallback (f : option provider) (m : FallbackMemoryManager) :=
  {| backendName := backendName m; primary := primary m; onClose := onClose m;
     fallback := f; primaryFailed := primaryFailed m; lastError := lastError m;
     cacheEvicted := cacheEvicted m |}.

Definition with_primaryFailed (b : bool) (m : FallbackMemoryManager) :=
  {| backendName := backendName m; primary := primary m; onClose := onClose m;
     fallback := fallback m; primaryFailed := b; lastError := lastError m;
     cacheEvicted := cacheEvicted m |}.

Definition with_lastError (e : option string) (m : FallbackMemoryManager) :=
  {| backendName := backendName m; primary := primary m; onClose := onClose m;
     fallback := fallback m; primaryFailed := primaryFailed m; lastError := e;
     cacheEvicted := cacheEvicted m |}.

Definition with_cacheEvicted (b : bool) (m : FallbackMemoryManager) :=
  {| backendName := backendName m; primary := primary m; onClose := onClose m;
     fallback := fallback m; primaryFailed := primaryFailed m;
     lastError := lastError m; cacheEvicted := b |}.

(** ** Methods: state, exceptions and the trace of events *)
Record state := {
  this : FallbackMemoryManager;
  PRIMARY_MANAGER_CACHE : gmap string address;
}.

Definition M (A : Type) : Type := state → outcome A * state * list event.

Definition ret {A} (a : A) : M A := λ s, (Resolved a, s, []).

Definition throw {A} (message : string) : M A := λ s, (Rejected message, s, []).

Definition bind {A B} (m : M A) (k : A → M B) : M B := λ s,
  match m s with
  | (Resolved a, s1, t1) =>
      match k a s1 with (r, s2, t2) => (r, s2, (t1 ++ t2)%list) end
  | (Rejected e, s1, t1) => (Rejected e, s1, t1)
  end.

(** [try { m } catch (err) { handler(message of err) }] *)
Definition try_catch {A} (m : M A) (handler : string → M A) : M A := λ s,
  match m s with
  | (Rejected e, s1, t1) =>
      match handler e s1 with (r, s2, t2) => (r, s2, (t1 ++ t2)%list) end
  | settled => settled
  end.

(** A call to the outside: the event, then the answer. *)
Definition await {A} (ev : event) (answer : outcome A) : M A := λ s, (answer, s, [ev]).

Definition get_this : M FallbackMemoryManager := λ s, (Resolved (this s), s, []).

Definition update (f : FallbackMemoryManager → FallbackMemoryManager) : M unit := λ s,
  (Resolved (), {| this := f (this s); PRIMARY_MANAGER_CACHE := PRIMARY_MANAGER_CACHE s |}, []).

Definition cache_delete (key : string) : M unit := λ s,
  (Resolved (), {| this := this s; PRIMARY_MANAGER_CACHE := delete key (PRIMARY_MANAGER_CACHE s) |},
   [OnClose key]).

Notation "x ← m ; k" := (bind m (λ x, k))
  (at level 20, m at level 100, k at level 200, only parsing).
Notation "m ;; k" := (bind m (λ _, k))
  (at level 100, k at level 200, right associativity, only parsing).

Definition evictCacheEntry : M unit :=
  self ← get_this;
  if cacheEvicted self then ret ()
  else
    update (with_cacheEvicted true);;
    match onClose self with
    | Some key => cache_delete key
    | None => ret ()
    end.

Definition ensureFallback (e : env) : M (option provider) :=
  self ← get_this;
  match fallback self with
  | Some f => ret (Some f)
  | None =>
      made ← await FallbackFactory (fallbackFactory e);
      match made with
      | None => ret None
      | Some f => update (with_fallback (Some f));; ret (Some f)
      end
  end.

(** [await h.close?.().catch(() => {})] *)
Definition close_quietly (r : role) (h : provider) (answer : option (outcome unit)) : M unit :=
  match answer with
  | None => ret ()
  | Some a => try_catch (await (Invoke r h CallClose) a) (λ _, ret ())
  end.

(** [await h.m?.(...)] for an optional method *)
Definition await_optional (ev : event) (answer : option (outcome unit)) : M unit :=
  match answer with
  | None => ret ()
  | Some a => await ev a
  end.

Definition search (e : env) (query : string) (opts : value) : M (list MemorySearchResult) :=
  self ← get_this;
  served ←
    (if negb (primaryFailed self) then
       try_catch
         (r ← await (Invoke Primary (primary self) (CallSearch query opts))
                    (on_search (of_primary e));
          ret (Some r))
         (λ err,
            update (with_primaryFailed true);;
            update (with_lastError (Some err));;
            close_quietly Primary (primary self) (on_close (of_primary e));;
            evictCacheEntry;;
            ret None)
     else ret None);
  match served with
  | Some r => ret r
  | None =>
      fb ← ensureFallback e;
      match fb with
      | Some f => await (Invoke Fallback f (CallSearch query opts)) (on_search (of_fallback e))
      | None =>
          self ← get_this;
          throw (default "memory search unavailable" (lastError self))
      end
  end.

Definition readFile (e : env) (params : ReadFileParams) : M FileText :=
  self ← get_this;
  if negb (primaryFailed self) then
    await (Invoke Primary (primary self) (CallReadFile params)) (on_readFile (of_primary e))
  else
    fb ← ensureFallback e;
    match fb with
    | Some f => await (Invoke Fallback f (CallReadFile params)) (on_readFile (of_fallback e))
    | None =>
        self ← get_this;
        throw (default "memory read unavailable" (lastError self))
    end.

(** [{...st, fallback: info, custom: {...custom, fallback: {disabled: true,
    reason}}}] where [custom] is [st.custom ?? {}], an object by its type. *)
Definition annotate (st : list (string * value)) (from reason : string)
    : list (string * value) :=
  let custom :=
    match nullish_or (member (JObject st) "custom") (JObject []) with
    | JObject c => c
    | _ => []
    end in
  let info := JObject [("from", JString from); ("reason", JString reason)] in
  let disabled := JObject [("disabled", JBool true); ("reason", JString reason)] in
  spread (spread [] st)
         [("fallback", info); ("custom", JObject (spread (spread [] custom) [("fallback", disabled)]))].

Definition status (e : env) : M (list (string * value)) :=
  self ← get_this;
  if negb (primaryFailed self) then
    await (Invoke Primary (primary self) CallStatus) (Resolved (on_status (of_primary e)))
  else
    let reason := default "unknown" (lastError self) in
    match fallback self with
    | Some f =>
        fallbackStatus ← await (Invoke Fallback f CallStatus) (Resolved (on_status (of_fallback e)));
        ret (annotate fallbackStatus (backendName self) reason)
    | None =>
        primaryStatus ← await (Invoke Primary (primary self) CallStatus)
                              (Resolved (on_status (of_primary e)));
        ret (annotate primaryStatus (backendName self) reason)
    end.

Definition sync (e : env) (params : value) : M unit :=
  self ← get_this;
  if negb (primaryFailed self) then
    await_optional (Invoke Primary (primary self) (CallSync params)) (on_sync (of_primary e))
  else
    fb ← ensureFallback e;
    match fb with
    | Some f => await_optional (Invoke Fallback f (CallSync params)) (on_sync (of_fallback e))
    | None => ret ()
    end.

Definition probeEmbeddingAvailability (e : env) : M MemoryEmbeddingProbeResult :=
  self ← get_this;
  if negb (primaryFailed self) then
    await (Invoke Primary (primary self) CallProbeEmbedding) (on_probeEmbedding (of_primary e))
  else
    fb ← ensureFallback e;
    match fb with
    | Some f => await (Invoke Fallback f CallProbeEmbedding) (on_probeEmbedding (of_fallback e))
    | None =>
        self ← get_this;
        ret {| ok := false;
               error := Some (default "memory embeddings unavailable" (lastError self)) |}
    end.

Definition probeVectorAvailability (e : env) : M bool :=
  self ← get_this;
  if negb (primaryFailed self) then
    await (Invoke Primary (primary self) CallProbeVector) (on_probeVector (of_primary e))
  else
    fb ← ensureFallback e;
    match fb with
    | Some f => await (Invoke Fallback f CallProbeVector) (on_probeVector (of_fallback e))
    | None => ret false
    end.

Definition close (e : env) : M unit :=
  self ← get_this;
  await_optional (Invoke Primary (primary self) CallClose) (on_close (of_primary e));;
  match fallback self with
  | Some f => await_optional (Invoke Fallback f CallClose) (on_close (of_fallback e))
  | None => ret ()
  end;;
  evictCacheEntry.
(** ** The cache and the selection of a provider *)

(** The store of decorator instances (an address is a position) and the
    module-level cache. *)
Record world := {
  instances : list FallbackMemoryManager;
  cache : gmap string address;
}.

Definition empty_world : world := {| instances := []; cache := ∅ |}.

(** A method of the instance at an address, run in the world. [None] when
    the address was never allocated. *)
Definition invoke {A} (a : address) (m : M A) (w : world)
    : option (outcome A * world * list event) :=
  match instances w !! a with
  | Some self =>
      match m {| this := self; PRIMARY_MANAGER_CACHE := cache w |} with
      | (r, s, t) =>
          Some (r, {| instances := <[a := this s]> (instances w);
                      cache := PRIMARY_MANAGER_CACHE s |}, t)
      end
  | None => None
  end.

(** The world and the events after a method was run in it; the world is
    empty and there are no events when there was no instance to run it. *)
Definition world_after {A} (x : option (outcome A * world * list event)) : world :=
  match x with
  | Some (_, w, _) => w
  | None => empty_world
  end.

Definition events_of {A} (x : option (outcome A * world * list event)) : list event :=
  match x with
  | Some (_, _, t) => t
  | None => []
  end.

(** A [MemorySearchManager]: a decorator or the builtin index itself. *)
Inductive manager_ref :=
| Wrapper (a : address)
| Direct (h : provider).

Record MemorySearchManagerResult := {
  manager : option manager_ref;
  error_message : option string;
}.

(** What [resolveMemoryBackendConfig] returned. *)
Record ResolvedMemoryBackendConfig := {
  backend : string;
  qmd : option value;
  engram : option value;
}.

(** The qmd backend was chosen, with its configuration. *)
Definition qmd_resolved (config : value) (other : option value) : ResolvedMemoryBackendConfig :=
  {| backend := "qmd"; qmd := Some config; engram := other |}.

(** The answers of the three constructors during one call; [None] is the
    [null] handle, which [MemoryIndexManager.get] can give as well: the
    fallback factory, which is the same call, tests for it. *)
Record construction := {
  QmdMemoryManager_create : outcome (option provider);
  EngramMemoryManager_create : outcome (option provider);
  MemoryIndexManager_get : outcome (option provider);
}.

Definition allocate (m : FallbackMemoryManager) (w : world) : address * world :=
  (length (instances w),
   {| instances := instances w ++ [m]; cache := cache w |}).

Definition cache_set (key : string) (a : address) (w : world) : world :=
  {| instances := instances w; cache := <[key := a]> (cache w) |}.

(** The last resort. What [MemoryIndexManager.get] gives is returned as it
    is, without a test for [null]. *)
Definition builtin (c : construction) (w : world)
    : MemorySearchManagerResult * world * list event :=
  match MemoryIndexManager_get c with
  | Resolved h => ({| manager := Direct <$> h; error_message := None |}, w, [IndexGet])
  | Rejected message => ({| manager := None; error_message := Some message |}, w, [IndexGet])
  end.

Definition engram_branch (resolved : ResolvedMemoryBackendConfig) (c : construction)
    (w : world) : option (MemorySearchManagerResult * world) * list event :=
  if bool_decide (backend resolved = "engram") && bool_decide (is_Some (engram resolved)) then
    match EngramMemoryManager_create c with
    | Resolved (Some primary) =>
        let '(a, w) := allocate (new_FallbackMemoryManager "engram" primary None) w in
        (Some ({| manager := Some (Wrapper a); error_message := None |}, w), [Create "engram"])
    | _ => (None, [Create "engram"])
    end
  else (None, []).

Definition qmd_branch (agentId : string) (resolved : ResolvedMemoryBackendConfig)
    (c : construction) (w : world)
    : option (MemorySearchManagerResult * world) * list event :=
  match qmd resolved with
  | Some config =>
      if bool_decide (backend resolved = "qmd") then
        let cacheKey := buildPrimaryCacheKey agentId "qmd" config in
        match cache w !! cacheKey with
        | Some cached =>
            (Some ({| manager := Some (Wrapper cached); error_message := None |}, w), [])
        | None =>
            match QmdMemoryManager_create c with
            | Resolved (Some primary) =>
                let '(a, w) :=
                  allocate (new_FallbackMemoryManager "qmd" primary (Some cacheKey)) w in
                (Some ({| manager := Some (Wrapper a); error_message := None |},
                       cache_set cacheKey a w), [Create "qmd"])
            | _ => (None, [Create "qmd"])
            end
        end
      else (None, [])
  | None => (None, [])
  end.

Definition getMemorySearchManager (agentId : string)
    (resolved : ResolvedMemoryBackendConfig) (c : construction) (w : world)
    : MemorySearchManagerResult * world * list event :=
  match qmd_branch agentId resolved c w with
  | (Some (result, w'), t) => (result, w', t)
  | (None, t1) =>
      match engram_branch resolved c w with
      | (Some (result, w'), t2) => (result, w', (t1 ++ t2)%list)
      | (None, t2) =>
          match builtin c w with
          | (result, w', t3) => (result, w', (t1 ++ t2 ++ t3)%list)
          end
      end
  end.
(** ** Runs of one instance *)

(** A call of a method of the decorator. *)
Inductive method :=
| Search (query : string) (opts : value)
| ReadFile (params : ReadFileParams)
| Status
| Sync (params : value)
| ProbeEmbeddingAvailability
| ProbeVectorAvailability
| Close.

Definition rejection {A} (r : outcome A) : option string :=
  match r with Rejected message => Some message | Resolved _ => None end.

Definition settled {A} (x : outcome A * state * list event)
    : option string * state * list event :=
  (rejection x.1.1, x.1.2, x.2).

(** One call: the message when it raises, the state and the events. *)
Definition run_method (c : method) (e : env) (s : state)
    : option string * state * list event :=
  match c with
  | Search query opts => settled (search e query opts s)
  | ReadFile params => settled (readFile e params s)
  | Status => settled (status e s)
  | Sync params => settled (sync e params s)
  | ProbeEmbeddingAvailability => settled (probeEmbeddingAvailability e s)
  | ProbeVectorAvailability => settled (probeVectorAvailability e s)
  | Close => settled (close e s)
  end.

(** The life of an instance: calls one after the other, each with the
    answers of the outside and with the cache as the rest of the program
    left it when the call is made. The result is the instance after the
    last call and all events. *)
Fixpoint lifetime (calls : list (method * env * gmap string address))
    (self : FallbackMemoryManager) : FallbackMemoryManager * list event :=
  match calls with
  | [] => (self, [])
  | (c, e, cache_now) :: rest =>
      match run_method c e {| this := self; PRIMARY_MANAGER_CACHE := cache_now |} with
      | (_, s, t) =>
          match lifetime rest (this s) with
          | (self', t') => (self', (t ++ t')%list)
          end
      end
  end.

Definition is_eviction (ev : event) : bool :=
  match ev with OnClose _ => true | _ => false end.

(** How often the eviction callback was invoked. *)
Definition evictions (t : list event) : nat := length (filter is_eviction t).

Definition is_primary_use (ev : event) : bool :=
  match ev with Invoke Primary _ _ => true | _ => false end.

(** Some method of the primary was called. *)
Definition uses_primary (t : list event) : bool := existsb is_primary_use t.

Definition is_construction (ev : event) : bool :=
  match ev with Create _ => true | _ => false end.

(** How often [QmdMemoryManager.create] or [EngramMemoryManager.create] was
    invoked. *)
Definition constructions (t : list event) : nat := length (filter is_construction t).

Definition is_factory_call (ev : event) : bool :=
  match ev with FallbackFactory => true | _ => false end.

(** How often the fallback factory was invoked. *)
Definition factory_calls (t : list event) : nat := length (filter is_factory_call t).

(** The fallback that a degraded call gets from [ensureFallback]. *)
Definition fallback_in_use (e : env) (self : FallbackMemoryManager) : option provider :=
  match fallback self with
  | Some f => Some f
  | None =>
      match fallbackFactory e with
      | Resolved (Some f) => Some f
      | _ => None
      end
  end.
(** The methods that hand the call to the primary and do nothing else while
    the primary is in use. *)
Definition is_plain_delegate (c : method) : bool :=
  match c with
  | ReadFile _ | Sync _ | ProbeEmbeddingAvailability | ProbeVectorAvailability => true
  | _ => false
  end.

(** The message with which the primary raises in the call that a method
    delegates to it, if it raises. *)
Definition primary_rejection (c : method) (e : env) : option string :=
  match c with
  | Search _ _ => rejection (on_search (of_primary e))
  | ReadFile _ => rejection (on_readFile (of_primary e))
  | Sync _ => on_sync (of_primary e) ≫= rejection
  | ProbeEmbeddingAvailability => rejection (on_probeEmbedding (of_primary e))
  | ProbeVectorAvailability => rejection (on_probeVector (of_primary e))
  | Status => None
  | Close => on_close (of_primary e) ≫= rejection
  end.
(** Calls that overlap run as a sequence of synchronous segments. As far as
    the guard of the eviction is concerned a segment writes fields of the
    instance or calls [evictCacheEntry]. *)
Inductive segment :=
| Write (f : FallbackMemoryManager → FallbackMemoryManager)
| Evict.

(** A write of the methods leaves the guard and the callback alone: only
    [evictCacheEntry] assigns [cacheEvicted]. *)
Definition keeps_guard (g : segment) : Prop :=
  match g with
  | Write f => ∀ m, cacheEvicted (f m) = cacheEvicted m ∧ onClose (f m) = onClose m
  | Evict => True
  end.

Definition run_segment (g : segment) (s : state) : state * list event :=
  match g with
  | Write f => ((update f s).1.2, (update f s).2)
  | Evict => ((evictCacheEntry s).1.2, (evictCacheEntry s).2)
  end.

Fixpoint run_segments (gs : list segment) (s : state) : state * list event :=
  match gs with
  | [] => (s, [])
  | g :: rest =>
      let '(s1, t1) := run_segment g s in
      let '(s2, t2) := run_segments rest s1 in
      (s2, (t1 ++ t2)%list)
  end.

(** ** What the rest of the properties speak of *)

(** A call of the primary that asks it for data: anything but [status] and
    [close]. *)
Definition is_primary_data_use (ev : event) : bool :=
  match ev with
  | Invoke Primary _ CallStatus | Invoke Primary _ CallClose => false
  | Invoke Primary _ _ => true
  | _ => false
  end.

(** The status that a degraded instance reports from. *)
Definition underlying_status (e : env) (self : FallbackMemoryManager) : list (string * value) :=
  match fallback self with
  | Some _ => on_status (of_fallback e)
  | None => on_status (of_primary e)
  end.

(** The [custom] object of a status, empty where there is none. *)
Definition custom_of (st : list (string * value)) : list (string * value) :=
  match get_own st "custom" with
  | Some (JObject c) => c
  | _ => []
  end.

(** How the eviction leaves the cache. *)
Definition evicted_cache (self : FallbackMemoryManager) (cache : gmap string address)
    : gmap string address :=
  if cacheEvicted self then cache
  else match onClose self with
       | Some key => delete key cache
       | None => cache
       end.

Definition eviction_events (self : FallbackMemoryManager) : list event :=
  if cacheEvicted self then []
  else match onClose self with
       | Some key => [OnClose key]
       | None => []
       end.

(** What a program does with the cache and the decorators: it acquires a
    manager, or it calls a method of a decorator it holds. *)
Inductive action :=
| Acquire (agentId : string) (resolved : ResolvedMemoryBackendConfig) (c : construction)
| Call (a : address) (c : method) (e : env).

(** The world after a method of the instance at an address has run; an
    address that was never allocated is held by nobody. *)
Definition call_method (a : address) (c : method) (e : env) (w : world) : world :=
  match instances w !! a with
  | Some self =>
      let s := (run_method c e {| this := self; PRIMARY_MANAGER_CACHE := cache w |}).1.2 in
      {| instances := <[a := this s]> (instances w); cache := PRIMARY_MANAGER_CACHE s |}
  | None => w
  end.

Definition perform (x : action) (w : world) : world :=
  match x with
  | Acquire agentId resolved c => (getMemorySearchManager agentId resolved c w).1.2
  | Call a c e => call_method a c e w
  end.

(** The world after a program that starts with nothing. *)
Definition history (xs : list action) : world := foldl (λ w x, perform x w) empty_world xs.

(** The cache holds exactly the instances that were created for a key and
    have not fired their eviction; an instance that degraded has fired
    it. *)
Definition cache_consistent (w : world) : Prop :=
  (∀ key a, cache w !! key = Some a ↔
     ∃ m, instances w !! a = Some m ∧ onClose m = Some key ∧ cacheEvicted m = false)
  ∧ (∀ a m, instances w !! a = Some m → primaryFailed m = true → cacheEvicted m = true).

(** What the builtin index gives when no provider was constructed. *)
Definition builtin_result (c : construction) : MemorySearchManagerResult :=
  match MemoryIndexManager_get c with
  | Resolved h => {| manager := Direct <$> h; error_message := None |}
  | Rejected message => {| manager := None; error_message := Some message |}
  end.

Definition yields_handle (answer : outcome (option provider)) : bool :=
  match answer with Resolved (Some _) => true | _ => false end.
End search_manager.
End SearchManager.

(** ** An instance of the platform, to run the model

    A number is kept as the numeral that the platform prints for it, which
    is enough where numbers are only passed on; strings are compared by their
    code units, which is how [localeCompare] orders identifiers written in
    lower-case letters. *)
Definition literal_numbers : JsNumber :=
  {| number := string;
     NaN := "NaN";
     number_of_Z := pretty;
     number_is_finite s := negb (bool_decide (s ∈ ["NaN"; "Infinity"; "-Infinity"]));
     number_to_boolean s := negb (bool_decide (s ∈ ["0"; "-0"; "NaN"]));
     number_to_string s := s;
     string_to_number s := s |}.

Definition ordinalCompare : Collator := λ a b,
  match String_as_OT.compare a b with
  | Lt => -1
  | Eq => 0
  | Gt => 1
  end.

(** A collation that knows one canonical equivalence of Unicode: the
    letter e followed by the combining acute accent (U+0065 U+0301) is the
    letter e with acute (U+00E9). [localeCompare] returns 0 on canonically
    equivalent strings; elsewhere this one compares code units. *)
Fixpoint compose (s : list ascii) : list ascii :=
  match s with
  | c1 :: rest =>
      match rest with
      | c2 :: c3 :: rest' =>
          if bool_decide (N_of_ascii c1 = 101%N ∧ N_of_ascii c2 = 204%N ∧ N_of_ascii c3 = 129%N)
          then ascii_of_N 195 :: ascii_of_N 169 :: compose rest'
          else c1 :: compose rest
      | _ => c1 :: compose rest
      end
  | [] => []
  end.

Definition canonical (s : string) : string :=
  string_of_list_ascii (compose (list_ascii_of_string s)).

Definition canonicalCompare : Collator := λ a b, ordinalCompare (canonical a) (canonical b).

(** ** Inputs on which the model is run *)
Section scenarios.
#[local] Existing Instance literal_numbers.
#[local] Existing Instance ordinalCompare.
Import SearchManager.

(** One resolved qmd configuration, written with two orders of its keys. *)
Definition config_A : value :=
  JObject
    [("command", JString "qmd");
     ("limits", JObject [("maxResults", JNumber "6"); ("timeoutMs", JNumber "4000")]);
     ("collections",
      JArray [JObject [("name", JString "memory"); ("path", JString "/tmp/workspace")]]);
     ("includeDefaultMemory", JBool true)].

Definition config_B : value :=
  JObject
    [("includeDefaultMemory", JBool true);
     ("collections",
      JArray [JObject [("path", JString "/tmp/workspace"); ("name", JString "memory")]]);
     ("limits", JObject [("timeoutMs", JNumber "4000"); ("maxResults", JNumber "6")]);
     ("command", JString "qmd")].

(** The word café as one key in its composed and in its decomposed
    spelling, in two orders. *)
Definition composed_key : string :=
  "caf" +:+ String (ascii_of_N 195) (String (ascii_of_N 169) EmptyString).

Definition decomposed_key : string :=
  "cafe" +:+ String (ascii_of_N 204) (String (ascii_of_N 129) EmptyString).

Definition accented_A : value :=
  JObject [(composed_key, JNumber "1"); (decomposed_key, JNumber "2")].

Definition accented_B : value :=
  JObject [(decomposed_key, JNumber "2"); (composed_key, JNumber "1")].

Definition engram_config : value :=
  JObject [("command", JString "engram-openclaw-adapter"); ("timeoutMs", JNumber "4000")].

Definition engram_resolved : ResolvedMemoryBackendConfig :=
  {| backend := "engram"; qmd := None; engram := Some engram_config |}.

(** Every constructor yields a handle. *)
Definition constructors_succeed : construction :=
  {| QmdMemoryManager_create := Resolved (Some 1%nat);
     EngramMemoryManager_create := Resolved (Some 1%nat);
     MemoryIndexManager_get := Resolved (Some 2%nat) |}.

(** The answers of the health, search and fetch processes of the tests. *)
Definition healthy_process : Engram.process :=
  Engram.Closed (Some 0) (json_text "{'ok':true,'status':{'backend_available':true}}")
    EmptyString.

Definition unavailable_process : Engram.process :=
  Engram.Closed (Some 0)
    (json_text "{'ok':true,'status':{'backend_available':false,'degraded':true}}")
    EmptyString.

Definition search_process : Engram.process :=
  Engram.Closed (Some 0)
    (json_text
       "{'ok':true,'data':{'results':[{'id':'MEMORY.md','score':0.91,'snippet':'remember this'}]},'status':{'backend_available':true}}")
    EmptyString.

Definition search_response : value :=
  JObject
    [("ok", JBool true);
     ("data",
      JObject
        [("results",
          JArray
            [JObject
               [("id", JString "MEMORY.md"); ("score", JNumber "0.91");
                ("snippet", JString "remember this")]])]);
     ("status", JObject [("backend_available", JBool true)])].

(** The health process answers with JSON that is not an object. *)
Definition null_process : Engram.process := Engram.Closed (Some 0) "null" EmptyString.

Definition zero_process : Engram.process := Engram.Closed (Some 0) "0" EmptyString.



(** A fetch response with such an object among its lines. *)
Definition unconvertible_lines : Engram.process :=
  Engram.Closed (Some 0)
    (json_text "{'ok':true,'data':{'content':['line 1',{'toString':1}]}}") EmptyString.

Definition garbage_process : Engram.process :=
  Engram.Closed (Some 0) "not json" EmptyString.

Definition workspace : Engram.CreateParams :=
  {| Engram.param_workspaceDir := "/tmp/workspace";
     Engram.param_command := Some "engram-openclaw-adapter";
     Engram.param_timeoutMs := Some "2000" |}.

(** A provider that answers every call without an error. *)
Definition quiet : answers :=
  {| on_search := Resolved [];
     on_readFile := Resolved {| text := EmptyString; file_path := "MEMORY.md" |};
     on_status := [("backend", JString "builtin")];
     on_sync := Some (Resolved ());
     on_probeEmbedding := Resolved {| ok := true; error := None |};
     on_probeVector := Resolved true;
     on_close := Some (Resolved ()) |}.

(** A primary whose [search] raises. *)
Definition failing : answers :=
  {| on_search := Rejected "qmd query failed";
     on_readFile := on_readFile quiet;
     on_status := [("backend", JString "qmd")];
     on_sync := on_sync quiet;
     on_probeEmbedding := on_probeEmbedding quiet;
     on_probeVector := on_probeVector quiet;
     on_close := on_close quiet |}.

(** The primary fails and the builtin index takes over. *)
Definition primary_fails : env :=
  {| of_primary := failing; fallbackFactory := Resolved (Some 2%nat); of_fallback := quiet |}.

(** The primary fails and the factory has no builtin index to give. *)
Definition nothing_works : env :=
  {| of_primary := failing; fallbackFactory := Resolved None; of_fallback := quiet |}.

(** The primary fails and the factory raises. *)
Definition factory_raises : env :=
  {| of_primary := failing;
     fallbackFactory := Rejected "builtin index unavailable";
     of_fallback := quiet |}.

(** The primary is in use and its [readFile] raises. *)
Definition read_fails : env :=
  {| of_primary :=
       {| on_search := on_search quiet;
          on_readFile := Rejected "read failed";
          on_status := on_status quiet;
          on_sync := on_sync quiet;
          on_probeEmbedding := on_probeEmbedding quiet;
          on_probeVector := on_probeVector quiet;
          on_close := on_close quiet |};
     fallbackFactory := Resolved (Some 2%nat);
     of_fallback := quiet |}.

Definition memory_file : ReadFileParams :=
  {| relPath := "MEMORY.md"; from := None; lines := None |}.

Definition all_quiet : env :=
  {| of_primary := quiet; fallbackFactory := Resolved (Some 2%nat); of_fallback := quiet |}.

Definition main_key : string := buildPrimaryCacheKey "main" "qmd" config_A.

Definition born : FallbackMemoryManager := new_FallbackMemoryManager "qmd" 1%nat (Some main_key).

(** The instance after a search that the primary failed, without a
    fallback. *)
Definition degraded : FallbackMemoryManager :=
  (lifetime [(Search "hello" JUndefined, nothing_works, ∅)] born).1.

Definition session_opts : value :=
  JObject [("sessionKey", JString "whatsapp:direct-chat:123")].
(** No provider can be constructed, the builtin index is there. *)
Definition constructors_decline : construction :=
  {| QmdMemoryManager_create := Resolved None;
     EngramMemoryManager_create := Rejected "engram unavailable";
     MemoryIndexManager_get := Resolved (Some 2%nat) |}.

(** No provider can be constructed and the builtin index gives [null]. *)
Definition nothing_available : construction :=
  {| QmdMemoryManager_create := Resolved None;
     EngramMemoryManager_create := Resolved None;
     MemoryIndexManager_get := Resolved None |}.

(** The search of the primary raises, and so does its [close]. *)
Definition close_fails : env :=
  {| of_primary :=
       {| on_search := Rejected "qmd query failed";
          on_readFile := on_readFile quiet;
          on_status := on_status quiet;
          on_sync := on_sync quiet;
          on_probeEmbedding := on_probeEmbedding quiet;
          on_probeVector := on_probeVector quiet;
          on_close := Some (Rejected "close failed") |};
     fallbackFactory := Resolved (Some 2%nat);
     of_fallback := quiet |}.

(** The builtin index reports a status with custom fields. *)
Definition reporting : env :=
  {| of_primary := failing;
     fallbackFactory := Resolved (Some 2%nat);
     of_fallback :=
       {| on_search := on_search quiet;
          on_readFile := on_readFile quiet;
          on_status :=
            [("backend", JString "builtin"); ("files", JNumber "3");
             ("custom", JObject [("searchMode", JString "hybrid")])];
          on_sync := on_sync quiet;
          on_probeEmbedding := on_probeEmbedding quiet;
          on_probeVector := on_probeVector quiet;
          on_close := on_close quiet |} |}.

(** The instance after a search that the primary failed and the fallback
    served. *)
Definition served : FallbackMemoryManager :=
  (lifetime [(Search "hello" JUndefined, primary_fails, ∅)] born).1.

(** A program that acquires the qmd manager of the main agent. *)
Definition first_acquisition : list action :=
  [Acquire "main" (qmd_resolved config_A None) constructors_succeed].

Definition search_options : list (string * value) :=
  [("maxResults", JNumber "3"); ("sessionKey", JString "whatsapp:direct-chat:123")].

Definition fetch_process : Engram.process :=
  Engram.Closed (Some 0)
    (json_text "{'ok':true,'data':{'content':['line 1','line 2']}}") EmptyString.
End scenarios.

(** * Properties *)

(** ** Sorting with a comparator that is a strict order on the keys at hand *)
Section sorting.
Context {A : Type} (le : A → A → bool).

Lemma insert_sorted_perm x l : insert_sorted le x l ≡ₚ x :: l.
Proof.
  induction l as [|y l IH]; simpl; [done|].
  destruct (le x y); [done|].
  rewrite IH. apply Permutation_swap.
Qed.

Lemma stable_sort_perm l : stable_sort le l ≡ₚ l.
Proof.
  induction l as [|x l IH]; simpl; [done|].
  unfold stable_sort in *. simpl. by rewrite insert_sorted_perm, IH.
Qed.

Lemma elem_of_stable_sort x l : x ∈ stable_sort le l ↔ x ∈ l.
Proof. by rewrite stable_sort_perm. Qed.

Variable K : list A.
Hypothesis le_total : ∀ a b, a ∈ K → b ∈ K → le a b = true ∨ le b a = true.
Hypothesis le_trans :
  ∀ a b c, a ∈ K → b ∈ K → c ∈ K → le a b = true → le b c = true → le a c = true.
Hypothesis le_antisym : ∀ a b, a ∈ K → b ∈ K → le a b = true → le b a = true → a = b.

#[local] Instance le_on_trans : Transitive (le_on le K).
Proof. intros a b c (?&?&?) (?&?&?). repeat split; eauto. Qed.

Lemma insert_sorted_sorted x l :
  x ∈ K → Forall (.∈ K) l → Sorted (le_on le K) l → Sorted (le_on le K) (insert_sorted le x l).
Proof.
  intros Hx Hl Hs. induction Hs as [|y l Hs IH Hhd]; simpl.
  { by repeat constructor. }
  apply Forall_cons in Hl as [Hy Hl].
  destruct (le x y) eqn:Hxy.
  - constructor; [by constructor|]. constructor. by repeat split.
  - constructor; [by apply IH|].
    assert (le y x = true) as Hyx by (destruct (le_total x y); congruence).
    destruct Hhd as [|z l Hyz]; simpl.
    + constructor. by repeat split.
    + destruct (le x z); constructor; [by repeat split | done].
Qed.

Lemma stable_sort_sorted l : Forall (.∈ K) l → Sorted (le_on le K) (stable_sort le l).
Proof.
  induction 1 as [|x l Hx Hl IH]; [constructor|].
  change (stable_sort le (x :: l)) with (insert_sorted le x (stable_sort le l)).
  apply insert_sorted_sorted; [exact Hx | | exact IH].
  apply Forall_forall. intros y Hy. rewrite elem_of_stable_sort in Hy.
  rewrite Forall_forall in Hl. by apply Hl.
Qed.

(** Two arrangements of the same keys sort to the same list. *)
Lemma stable_sort_unique l1 l2 :
  Forall (.∈ K) l1 → l1 ≡ₚ l2 → stable_sort le l1 = stable_sort le l2.
Proof.
  intros Hl1 Hp.
  assert (Forall (.∈ K) l2) as Hl2 by (by rewrite <- Hp).
  apply (Sorted_unique_strong (le_on le K)).
  - intros a b _ _ (?&?&?) (?&?&?). eauto.
  - by apply stable_sort_sorted.
  - by apply stable_sort_sorted.
  - by rewrite !stable_sort_perm.
Qed.
End sorting.

(** ** Property lists *)
Section props_facts.
Context {A : Type}.
Implicit Types (props : list (string * A)) (key : string).

Lemma get_own_map {B} (f : A → B) props key :
  get_own (map (λ kv, (kv.1, f kv.2)) props) key = f <$> get_own props key.
Proof.
  induction props as [|[k v] props IH]; simpl; [done|].
  by destruct (decide (k = key)).
Qed.

Lemma get_own_Some props key v : get_own props key = Some v → (key, v) ∈ props.
Proof.
  induction props as [|[k w] props IH]; simpl; [done|].
  destruct (decide (k = key)) as [->|]; intros Hv.
  - injection Hv as ->. left.
  - right. auto.
Qed.

Lemma get_own_NoDup props key v :
  NoDup props.*1 → (key, v) ∈ props → get_own props key = Some v.
Proof.
  induction props as [|[k w] props IH]; simpl; intros Hnd Hin.
  { by apply elem_of_nil in Hin. }
  apply NoDup_cons in Hnd as [Hk Hnd].
  apply elem_of_cons in Hin as [Heq|Hin].
  - injection Heq as -> ->. by rewrite decide_True.
  - rewrite decide_False; [by apply IH|].
    intros ->. apply Hk. apply list_elem_of_fmap. by exists (key, v).
Qed.

Lemma get_own_is_Some props key : key ∈ props.*1 → is_Some (get_own props key).
Proof.
  induction props as [|[k w] props IH]; simpl; intros Hin.
  { by apply elem_of_nil in Hin. }
  destruct (decide (k = key)); [by eexists|].
  apply elem_of_cons in Hin as [?|?]; [congruence | auto].
Qed.

Lemma own_entries_perm props : own_entries props ≡ₚ props.
Proof.
  unfold own_entries. rewrite stable_sort_perm.
  apply (filter_app_complement (λ p : string * A, is_Some (array_index p.1))).
Qed.

Lemma Object_keys_perm props : Object_keys props ≡ₚ props.*1.
Proof. unfold Object_keys. by rewrite own_entries_perm. Qed.
Lemma get_own_None props key : key ∉ props.*1 → get_own props key = None.
Proof.
  intros Hk. destruct (get_own props key) as [v|] eqn:Hv; [|done].
  destruct Hk. apply get_own_Some in Hv. apply list_elem_of_fmap. by exists (key, v).
Qed.

Lemma get_own_set_own props key key' v :
  get_own (set_own props key' v) key
  = if decide (key' = key) then Some v else get_own props key.
Proof.
  induction props as [|[k w] props IH]; simpl.
  { done. }
  destruct (decide (k = key')) as [->|Hne]; simpl.
  - by destruct (decide (key' = key)).
  - rewrite IH. destruct (decide (k = key)) as [->|]; [|done].
    by rewrite decide_False by done.
Qed.

Lemma get_own_perm props props' key :
  NoDup props.*1 → props ≡ₚ props' → get_own props' key = get_own props key.
Proof.
  intros Hnd Hp.
  assert (NoDup props'.*1) as Hnd' by (by rewrite <- Hp).
  destruct (get_own props key) as [v|] eqn:Hv.
  - apply get_own_NoDup; [done|]. rewrite <- Hp. by apply get_own_Some.
  - apply get_own_None. rewrite <- Hp. intros Hin.
    apply get_own_is_Some in Hin as [? ?]. congruence.
Qed.

(** A later property of a spread wins, one that is not there leaves what
    was. *)
Lemma get_own_assign (entries base : list (string * A)) key :
  NoDup entries.*1 →
  get_own (foldl (λ o kv, set_own o kv.1 kv.2) base entries) key
  = match get_own entries key with
    | Some v => Some v
    | None => get_own base key
    end.
Proof.
  revert base. induction entries as [|[k v] entries IH]; intros base Hnd; simpl.
  { done. }
  apply NoDup_cons in Hnd as [Hk Hnd].
  rewrite IH by done. rewrite get_own_set_own.
  destruct (decide (k = key)) as [->|]; [|done].
  by rewrite get_own_None.
Qed.
Lemma set_own_keys props key v :
  (set_own props key v).*1
  = if decide (key ∈ props.*1) then props.*1 else (props.*1 ++ [key])%list.
Proof.
  induction props as [|[k w] props IH].
  { simpl. destruct (decide (key ∈ [])) as [Hin|]; [|done]. by apply elem_of_nil in Hin. }
  cbn [set_own]. destruct (decide (k = key)) as [->|Hne].
  - cbn [fmap list_fmap fst].
    destruct (decide (key ∈ key :: props.*1)) as [|Hout]; [done|].
    destruct Hout. left.
  - change (((k, w) :: set_own props key v).*1) with (k :: (set_own props key v).*1).
    rewrite IH. change (((k, w) :: props).*1) with (k :: props.*1).
    destruct (decide (key ∈ props.*1)) as [Hin|Hin];
      destruct (decide (key ∈ k :: props.*1)) as [Hin'|Hin']; try done.
    + destruct Hin'. by right.
    + apply elem_of_cons in Hin' as [->|?]; done.
Qed.

Lemma set_own_NoDup props key v : NoDup props.*1 → NoDup (set_own props key v).*1.
Proof.
  intros Hnd. rewrite set_own_keys. destruct (decide (key ∈ props.*1)); [done|].
  apply NoDup_app. split; [done|]. split; [|apply NoDup_singleton].
  intros k Hk ->%list_elem_of_singleton. done.
Qed.

Lemma assign_NoDup (entries base : list (string * A)) :
  NoDup base.*1 → NoDup (foldl (λ o kv, set_own o kv.1 kv.2) base entries).*1.
Proof.
  revert base. induction entries as [|[k v] entries IH]; intros base Hnd; simpl; [done|].
  by apply IH, set_own_NoDup.
Qed.
End props_facts.

(** ** The fingerprint does not depend on the order of the keys *)
Section fingerprint.
Context `{JsNumber} `{Collator}.

Lemma value_ind (P : value → Prop) :
  P JUndefined → P JNull → (∀ b, P (JBool b)) → (∀ n, P (JNumber n)) →
  (∀ s, P (JString s)) →
  (∀ elems, Forall P elems → P (JArray elems)) →
  (∀ props, Forall (λ kv, P kv.2) props → P (JObject props)) →
  ∀ v, P v.
Proof.
  intros Hu Hn Hb Hnum Hs Ha Ho. fix IH 1.
  intros [| | b | n | s | elems | props];
    [exact Hu | exact Hn | apply Hb | apply Hnum | apply Hs | | ].
  - apply Ha. induction elems as [|e es IHes]; constructor; [apply IH | apply IHes].
  - apply Ho. induction props as [|[k e] es IHes]; constructor; [apply IH | apply IHes].
Qed.

Lemma strict_collation_sub K K' :
  K' ⊆ K → strict_collation K → strict_collation K'.
Proof.
  intros Hsub [Hf Ht Hs]. split.
  - intros a b ??. apply Hf; auto.
  - intros a b c ???. apply Ht; auto.
  - intros a b ??. apply Hs; auto.
Qed.

Lemma toSorted_unique K l1 l2 :
  strict_collation K → l1 ⊆ K → l1 ≡ₚ l2 →
  toSorted localeCompare l1 = toSorted localeCompare l2.
Proof.
  intros [Hf Ht Hs] Hsub Hp. unfold toSorted.
  apply (stable_sort_unique _ K); [| | |by apply Forall_forall|done].
  - intros a b Ha Hb. rewrite !bool_decide_eq_true.
    destruct (decide (localeCompare a b ≤ 0)); [by left|right].
    assert (localeCompare b a < 0) by (apply Hf; [done..|lia]). lia.
  - intros a b c Ha Hb Hc. rewrite !bool_decide_eq_true. by apply Ht.
  - intros a b Ha Hb. rewrite !bool_decide_eq_true. intros Hab Hba.
    apply Hs; [done..|].
    destruct (decide (localeCompare a b < 0)) as [Hlt|]; [|lia].
    apply Hf in Hlt; [lia|done..].
Qed.

Lemma all_keys_elem (elems : list value) (e : value) :
  e ∈ elems → all_keys e ⊆ all_keys (JArray elems).
Proof.
  intros He k Hk. simpl. apply list_elem_of_In, in_concat.
  exists (all_keys e). split; [|by apply list_elem_of_In].
  apply in_map, list_elem_of_In, He.
Qed.

Lemma all_keys_prop (props : list (string * value)) key v :
  (key, v) ∈ props → all_keys v ⊆ all_keys (JObject props).
Proof.
  intros He k Hk. simpl. apply elem_of_app. right.
  apply list_elem_of_In, in_concat.
  exists (all_keys v). split; [|by apply list_elem_of_In].
  apply (in_map (λ kv, all_keys kv.2) _ (key, v)), list_elem_of_In, He.
Qed.
Lemma same_config_keys (ps qs : list (string * value)) :
  NoDup ps.*1 → same_config (JObject ps) (JObject qs) = true → ps.*1 ≡ₚ qs.*1.
Proof.
  intros Hnd Hsame. simpl in Hsame.
  apply andb_true_iff in Hsame as [Hlen Hall].
  apply bool_decide_eq_true in Hlen.
  apply submseteq_length_Permutation; [|by rewrite !length_fmap, Hlen].
  apply NoDup_submseteq; [done|]. intros k Hk.
  apply list_elem_of_fmap in Hk as ([k' v] & -> & Hin).
  rewrite forallb_forall in Hall. apply list_elem_of_In, Hall in Hin. simpl in *.
  destruct (get_own qs k') as [w|] eqn:Hw; [|done].
  apply get_own_Some in Hw. apply list_elem_of_fmap. by exists (k', w).
Qed.

Lemma sortValue_same_config (a : value) : ∀ b,
  wf_value a = true → strict_collation (all_keys a) →
  same_config a b = true → sortValue a = sortValue b.
Proof.
  induction a as [| | x | x | x | xs IH | ps IH] using value_ind;
    intros [| | y | y | y | ys | qs] Hwa Hstrict Hsame; try discriminate Hsame;
    try reflexivity.
  - by apply bool_decide_eq_true in Hsame as ->.
  - by apply bool_decide_eq_true in Hsame as ->.
  - by apply bool_decide_eq_true in Hsame as ->.
  - (* arrays *)
    simpl. f_equal. revert ys Hsame.
    induction IH as [|x xs Hx _ IHxs]; intros [|y ys] Hsame;
      try discriminate Hsame; [done|].
    simpl in Hwa, Hsame.
    apply andb_true_iff in Hwa as [Hwx Hwxs].
    apply andb_true_iff in Hsame as [Hxy Hrest].
    simpl. f_equal.
    + apply Hx; [done| |done].
      eapply strict_collation_sub; [|exact Hstrict].
      apply all_keys_elem. left.
    + apply IHxs; [done| |done].
      eapply strict_collation_sub; [|exact Hstrict].
      intros k Hk. simpl. apply elem_of_app. by right.
  - (* objects *)
    simpl in Hwa.
    apply andb_true_iff in Hwa as [Hnda Hwa].
    apply bool_decide_eq_true in Hnda.
    rewrite forallb_forall in Hwa.
    pose proof (same_config_keys ps qs Hnda Hsame) as Hkeys.
    assert (ps.*1 ⊆ all_keys (JObject ps)) as Hsub.
    { intros k Hk. simpl. apply elem_of_app. by left. }
    assert (toSorted localeCompare (Object_keys ps)
            = toSorted localeCompare (Object_keys qs)) as Hsorted.
    { apply (toSorted_unique (all_keys (JObject ps))); [done| |].
      - intros k Hk. apply Hsub. by rewrite <- (Object_keys_perm ps).
      - by rewrite !Object_keys_perm. }
    simpl. rewrite <- Hsorted. do 2 f_equal.
    apply map_ext_in. intros key Hkey. f_equal. f_equal.
    rewrite !get_own_map.
    apply list_elem_of_In in Hkey.
    unfold toSorted in Hkey. rewrite elem_of_stable_sort, Object_keys_perm in Hkey.
    apply list_elem_of_fmap in Hkey as ([k v] & -> & Hin). simpl.
    simpl in Hsame. apply andb_true_iff in Hsame as [_ Hall].
    rewrite forallb_forall in Hall.
    pose proof (Hall _ (proj1 (list_elem_of_In _ _) Hin)) as Hv. simpl in Hv.
    destruct (get_own qs k) as [w|] eqn:Hw; [|done].
    rewrite (get_own_NoDup ps k v Hnda Hin). simpl. f_equal.
    rewrite Forall_forall in IH.
    apply (IH (k, v) Hin); [| |done].
    + apply (Hwa (k, v)). by apply list_elem_of_In.
    + eapply strict_collation_sub; [|exact Hstrict]. by eapply all_keys_prop.
Qed.
End fingerprint.

Section cache_key.
Context `{JsNumber} `{Collator}.

Lemma buildPrimaryCacheKey_same_config (agentId backend : string) (A B : value) :
  wf_value A = true → strict_collation (all_keys A) → same_config A B = true →
  buildPrimaryCacheKey agentId backend A = buildPrimaryCacheKey agentId backend B.
Proof.
  intros HA HK Hsame. unfold buildPrimaryCacheKey, stableSerialize.
  by rewrite (sortValue_same_config A B).
Qed.
End cache_key.

(** The comparison by code units is a strict order on any keys. *)
Lemma ordinalCompare_cases (a b : string) :
  (a = b ∧ @localeCompare ordinalCompare a b = 0)
  ∨ (String_as_OT.lt a b ∧ @localeCompare ordinalCompare a b = -1)
  ∨ (String_as_OT.lt b a ∧ @localeCompare ordinalCompare a b = 1).
Proof.
  unfold localeCompare, ordinalCompare.
  destruct (String_as_OT.compare_spec a b); auto.
Qed.

Lemma ordinalCompare_sign (a b : string) :
  (@localeCompare ordinalCompare a b < 0 ↔ String_as_OT.lt a b)
  ∧ (@localeCompare ordinalCompare a b = 0 ↔ a = b)
  ∧ (0 < @localeCompare ordinalCompare a b ↔ String_as_OT.lt b a).
Proof.
  pose proof String_as_OT.lt_strorder as [Hirr Htr].
  assert (∀ x y, String_as_OT.lt x y → String_as_OT.lt y x → False) as Hasym.
  { intros x y Hxy Hyx. by apply (Hirr x), (Htr x y x). }
  destruct (ordinalCompare_cases a b) as [[Hab E]|[[L E]|[L E]]]; rewrite E.
  - subst b. repeat split; try lia; try done; intros L; by apply Hirr in L.
  - repeat split; try lia; try done.
    + intros ->. by apply Hirr in L.
    + intros L'. exfalso. eauto.
  - repeat split; try lia; try done.
    + intros L'. exfalso. eauto.
    + intros ->. by apply Hirr in L.
Qed.

Lemma ordinalCompare_strict (K : list string) : @strict_collation ordinalCompare K.
Proof.
  pose proof String_as_OT.lt_strorder as [Hirr Htr].
  split.
  - intros a b _ _.
    destruct (ordinalCompare_sign a b) as (Hlt & _ & _).
    destruct (ordinalCompare_sign b a) as (_ & _ & Hgt).
    by rewrite Hlt, Hgt.
  - intros a b c _ _ _ Hab Hbc.
    destruct (ordinalCompare_sign a b) as (Hab1 & Hab2 & _).
    destruct (ordinalCompare_sign b c) as (Hbc1 & Hbc2 & _).
    destruct (ordinalCompare_sign a c) as (Hac1 & Hac2 & _).
    destruct (decide (@localeCompare ordinalCompare a b = 0)) as [E1|N1];
      destruct (decide (@localeCompare ordinalCompare b c = 0)) as [E2|N2].
    + apply Hab2 in E1 as ->. lia.
    + apply Hab2 in E1 as ->. lia.
    + apply Hbc2 in E2 as ->. lia.
    + assert (String_as_OT.lt a c) as L.
      { apply (Htr a b c); [apply Hab1; lia | apply Hbc1; lia]. }
      apply Hac1 in L. lia.
  - intros a b _ _ E. by apply (ordinalCompare_sign a b).
Qed.

(** C4, as amended. Two resolved configurations that are structurally equal
    and differ only in the order of their keys, at any depth, have the same
    fingerprint and so the same cache key, when no object of the
    configuration has a key twice and [localeCompare] is a strict order on
    the keys that occur: it returns 0 for no two different keys. *)
Theorem fingerprint_ignores_key_order `{JsNumber} `{Collator}
    (agentId backend : string) (A B : value) :
  wf_value A = true → strict_collation (all_keys A) → same_config A B = true →
  stableSerialize A = stableSerialize B
  ∧ buildPrimaryCacheKey agentId backend A = buildPrimaryCacheKey agentId backend B.
Proof.
  intros HA HK Hsame. split.
  - unfold stableSerialize. by rewrite (sortValue_same_config A B).
  - by apply buildPrimaryCacheKey_same_config.
Qed.

(** ** The fuel of the parser is enough *)
Section json_parse_facts.
Context `{JsNumber}.
#[local] Abbreviation len := String.length.

Lemma skip_ws_length s : (len (skip_ws s) ≤ len s)%nat.
Proof. induction s as [|c s IH]; simpl; [lia|]. destruct (is_ws c); simpl; lia. Qed.

Lemma first_is_length n s r : first_is n s = Some r → len s = S (len r).
Proof. destruct s as [|c s]; simpl; [done|]. case_match; naive_solver. Qed.

Lemma hex4_length s u r : hex4 s = Some (u, r) → len s = (4 + len r)%nat.
Proof.
  destruct s as [|a [|b [|c [|d s]]]]; simpl; try done.
  destruct (hex_value a), (hex_value b), (hex_value c), (hex_value d); simpl;
    intros; simplify_eq; done.
Qed.

Lemma strip_prefix_length word s r :
  strip_prefix word s = Some r → len s = (len word + len r)%nat.
Proof.
  revert s. induction word as [|c word IH]; intros [|d s]; simpl; try naive_solver.
  case_match; [|done]. intros Hs. apply IH in Hs. lia.
Qed.

Lemma scan_string_enough n : ∀ s ps rest,
  scan_string n s = Some (ps, rest) →
  (len rest < len s)%nat
  ∧ ∀ m, (len s - len rest ≤ m)%nat → scan_string m s = Some (ps, rest).
Proof.
  induction n as [|n IH]; intros s ps rest Hs; [done|].
  destruct s as [|c r]; simpl in Hs; [done|].
  destruct (code c =? 34)%N eqn:Hq.
  { simplify_eq/=. split; [lia|]. intros [|m] ?; [lia|]. simpl. by rewrite Hq. }
  destruct (code c =? 92)%N eqn:Hb.
  - destruct r as [|e r']; [done|].
    destruct (code e =? 117)%N eqn:Hu.
    + destruct (hex4 r') as [[u r'']|] eqn:Hh; simpl in Hs; [|done].
      destruct (scan_string n r'') as [[ps' rest']|] eqn:Hr; simplify_eq/=.
      pose proof (hex4_length _ _ _ Hh). destruct (IH _ _ _ Hr) as [Hlt Hm].
      split; [lia|]. intros [|m] ?; [lia|]. simpl. rewrite Hq, Hb, Hu, Hh. simpl.
      rewrite Hm by lia. done.
    + destruct (simple_escape e) as [u|] eqn:He; simpl in Hs; [|done].
      destruct (scan_string n r') as [[ps' rest']|] eqn:Hr; simplify_eq/=.
      destruct (IH _ _ _ Hr) as [Hlt Hm].
      split; [lia|]. intros [|m] ?; [lia|]. simpl. rewrite Hq, Hb, Hu, He. simpl.
      rewrite Hm by lia. done.
  - destruct (code c <? 32)%N eqn:Hc; [done|].
    destruct (scan_string n r) as [[ps' rest']|] eqn:Hr; simplify_eq/=.
    destruct (IH _ _ _ Hr) as [Hlt Hm].
    split; [lia|]. intros [|m] ?; [lia|]. simpl. rewrite Hq, Hb, Hc.
    rewrite Hm by lia. done.
Qed.

Lemma parse_string_length s str rest :
  parse_string s = Some (str, rest) → (len rest < len s)%nat.
Proof.
  unfold parse_string. destruct (scan_string _ s) as [[ps r]|] eqn:Hs; simpl; [|done].
  intros [= <- <-]. by apply scan_string_enough in Hs as [? _].
Qed.

Lemma span_digits_length s d r : span_digits s = (d, r) → len s = (len d + len r)%nat.
Proof.
  revert d r. induction s as [|c s IH]; simpl; intros d r.
  { by intros [= <- <-]. }
  destruct (is_digit c).
  - destruct (span_digits s) as [d' r'] eqn:Hs. intros [= <- <-].
    specialize (IH _ _ eq_refl). simpl. lia.
  - by intros [= <- <-].
Qed.

Lemma scan_sign_length plus s sg r : scan_sign plus s = (sg, r) → (len r ≤ len s)%nat.
Proof.
  unfold scan_sign. destruct s as [|c s]; [by intros [= <- <-]|].
  destruct (_ || _); intros [= <- <-]; simpl; lia.
Qed.

Lemma scan_number_length s lit rest :
  scan_number s = Some (lit, rest) → (len rest < len s)%nat.
Proof.
  unfold scan_number.
  destruct (scan_sign false s) as [sg r0] eqn:Hsg.
  apply scan_sign_length in Hsg as H0.
  destruct (scan_int r0) as [[i r1]|] eqn:Hi; simpl; [|done].
  assert (len r1 < len r0)%nat as H1.
  { unfold scan_int in Hi. destruct r0 as [|c r]; [done|].
    destruct (code c =? 48)%N; [simplify_eq/=; lia|].
    destruct (is_digit c) eqn:Hd; [|done]. simplify_eq/=. rewrite Hd in Hi.
    destruct (span_digits r) as [d' r'] eqn:Hs. simplify_eq/=.
    apply span_digits_length in Hs. lia. }
  destruct (scan_frac r1) as [[f r2]|] eqn:Hf; simpl; [|done].
  assert (len r2 ≤ len r1)%nat as H2.
  { unfold scan_frac in Hf. destruct r1 as [|c r]; [by simplify_eq|].
    destruct (code c =? 46)%N; [|by simplify_eq].
    destruct (span_digits r) as [d' r'] eqn:Hs.
    apply span_digits_length in Hs. case_match; simplify_eq/=. lia. }
  destruct (scan_exp r2) as [[e r3]|] eqn:He; simpl; [|done].
  assert (len r3 ≤ len r2)%nat as H3.
  { unfold scan_exp in He. destruct r2 as [|c r]; [by simplify_eq|].
    destruct (_ || _); [|by simplify_eq].
    destruct (scan_sign true r) as [sg' ra] eqn:Hsg'.
    apply scan_sign_length in Hsg'.
    destruct (span_digits ra) as [d' r'] eqn:Hs.
    apply span_digits_length in Hs. case_match; simplify_eq/=. lia. }
  intros [= <- <-]. lia.
Qed.
Lemma parse_value_S n s :
  parse_value (S n) s =
  let s := skip_ws s in
  match s with
  | EmptyString => None
  | String c r =>
      let k := code c in
      if (k =? 91)%N then
        match first_is 93 (skip_ws r) with
        | Some rest => Some (JArray [], rest)
        | None => parse_elements n r []
        end
      else if (k =? 123)%N then
        match first_is 125 (skip_ws r) with
        | Some rest => Some (JObject [], rest)
        | None => parse_members n r []
        end
      else if (k =? 34)%N then
        '(str, rest) ← parse_string r; Some (JString str, rest)
      else if (k =? 116)%N then expect "true" (JBool true) s
      else if (k =? 102)%N then expect "false" (JBool false) s
      else if (k =? 110)%N then expect "null" JNull s
      else '(lit, rest) ← scan_number s; Some (JNumber (string_to_number lit), rest)
  end.
Proof. reflexivity. Qed.

Lemma parse_elements_S n s acc :
  parse_elements (S n) s acc =
  '(v, r) ← parse_value n s;
  let r := skip_ws r in
  match first_is 44 r with
  | Some rest => parse_elements n rest (v :: acc)
  | None => rest ← first_is 93 r; Some (JArray (rev (v :: acc)), rest)
  end.
Proof. reflexivity. Qed.

Lemma parse_members_S n s acc :
  parse_members (S n) s acc =
  r0 ← first_is 34 (skip_ws s);
  '(key, r1) ← parse_string r0;
  r2 ← first_is 58 (skip_ws r1);
  '(v, r3) ← parse_value n r2;
  let r3 := skip_ws r3 in
  let acc := set_own acc key v in
  match first_is 44 r3 with
  | Some rest => parse_members n rest acc
  | None => rest ← first_is 125 r3; Some (JObject acc, rest)
  end.
Proof. reflexivity. Qed.

Lemma expect_length word v s v' rest :
  expect word v s = Some (v', rest) → len s = (len word + len rest)%nat.
Proof.
  unfold expect. destruct (strip_prefix word s) as [r|] eqn:Hs; simpl; [|done].
  intros [= <- <-]. by apply strip_prefix_length.
Qed.

Lemma parse_enough n :
  enough parse_value n
  ∧ (∀ acc, enough (λ n s, parse_elements n s acc) n)
  ∧ (∀ acc, enough (λ n s, parse_members n s acc) n).
Proof.
  induction n as [|n (IHv & IHe & IHm)].
  { repeat split; intros; discriminate. }
  split; [|split].
  - intros s v rest Hs. rewrite parse_value_S in Hs.
    pose proof (skip_ws_length s) as Hws.
    destruct (skip_ws s) as [|c r] eqn:Es; [done|].
    cbv beta iota zeta in Hs. simpl in Hws.
    destruct (code c =? 91)%N eqn:E91.
    { pose proof (skip_ws_length r) as Hwr.
      destruct (first_is 93 (skip_ws r)) as [rest'|] eqn:Ef.
      - simplify_eq. apply first_is_length in Ef as Hl.
        split; [lia|]. intros [|m] Hm; [lia|].
        rewrite parse_value_S, Es. cbv beta iota zeta. by rewrite E91, Ef.
      - apply IHe in Hs as [Hlt Hen]. split; [lia|]. intros [|m] Hm; [lia|].
        rewrite parse_value_S, Es. cbv beta iota zeta. rewrite E91, Ef. apply Hen. lia. }
    destruct (code c =? 123)%N eqn:E123.
    { pose proof (skip_ws_length r) as Hwr.
      destruct (first_is 125 (skip_ws r)) as [rest'|] eqn:Ef.
      - simplify_eq. apply first_is_length in Ef as Hl.
        split; [lia|]. intros [|m] Hm; [lia|].
        rewrite parse_value_S, Es. cbv beta iota zeta. by rewrite E91, E123, Ef.
      - apply IHm in Hs as [Hlt Hen]. split; [lia|]. intros [|m] Hm; [lia|].
        rewrite parse_value_S, Es. cbv beta iota zeta. rewrite E91, E123, Ef. apply Hen. lia. }
    assert ((len rest < len (String c r))%nat) as Hlt.
    { destruct (code c =? 34)%N.
      - destruct (parse_string r) as [[str rest']|] eqn:Ep; simplify_eq/=.
        apply parse_string_length in Ep. lia.
      - destruct (code c =? 116)%N; [apply expect_length in Hs; simpl in *; lia|].
        destruct (code c =? 102)%N; [apply expect_length in Hs; simpl in *; lia|].
        destruct (code c =? 110)%N; [apply expect_length in Hs; simpl in *; lia|].
        destruct (scan_number (String c r)) as [[lit rest']|] eqn:En; simplify_eq/=.
        apply scan_number_length in En. simpl in En. lia. }
    simpl in Hlt. split; [lia|]. intros [|m] Hm; [lia|].
    rewrite parse_value_S, Es. cbv beta iota zeta. by rewrite E91, E123.
  - intros acc s v rest Hs. cbn beta in *. rewrite parse_elements_S in Hs.
    destruct (parse_value n s) as [[v1 r1]|] eqn:Ev; simpl in Hs; [|done].
    destruct (IHv _ _ _ Ev) as [Hlt1 Hen1].
    pose proof (skip_ws_length r1) as Hw1.
    destruct (first_is 44 (skip_ws r1)) as [r2|] eqn:Ec.
    + apply first_is_length in Ec as Hl.
      destruct (IHe _ _ _ _ Hs) as [Hlt2 Hen2]. cbn beta in *.
      split; [lia|]. intros [|m] Hm; [lia|].
      rewrite parse_elements_S, Hen1 by lia. simpl. rewrite Ec. apply Hen2. lia.
    + destruct (first_is 93 (skip_ws r1)) as [r2|] eqn:Eb; simplify_eq/=.
      apply first_is_length in Eb as Hl.
      split; [lia|]. intros [|m] Hm; [lia|].
      rewrite parse_elements_S, Hen1 by lia. simpl. by rewrite Ec, Eb.
  - intros acc s v rest Hs. cbn beta in *. rewrite parse_members_S in Hs.
    pose proof (skip_ws_length s) as Hw0.
    destruct (first_is 34 (skip_ws s)) as [r0|] eqn:E0; simpl in Hs; [|done].
    apply first_is_length in E0 as Hl0.
    destruct (parse_string r0) as [[key r1]|] eqn:Ek; simpl in Hs; [|done].
    apply parse_string_length in Ek as Hlk.
    pose proof (skip_ws_length r1) as Hw1.
    destruct (first_is 58 (skip_ws r1)) as [r2|] eqn:E2; simpl in Hs; [|done].
    apply first_is_length in E2 as Hl2.
    destruct (parse_value n r2) as [[v3 r3]|] eqn:Ev; simpl in Hs; [|done].
    destruct (IHv _ _ _ Ev) as [Hlt3 Hen3].
    pose proof (skip_ws_length r3) as Hw3.
    destruct (first_is 44 (skip_ws r3)) as [r4|] eqn:Ec.
    + apply first_is_length in Ec as Hl4.
      destruct (IHm _ _ _ _ Hs) as [Hlt5 Hen5]. cbn beta in *.
      split; [lia|]. intros [|m] Hm; [lia|].
      rewrite parse_members_S, E0. simpl. rewrite Ek. simpl. rewrite E2. simpl.
      rewrite Hen3 by lia. simpl. rewrite Ec. apply Hen5. lia.
    + destruct (first_is 125 (skip_ws r3)) as [r4|] eqn:Eb; simplify_eq/=.
      apply first_is_length in Eb as Hl4.
      split; [lia|]. intros [|m] Hm; [lia|].
      rewrite parse_members_S, E0. simpl. rewrite Ek. simpl. rewrite E2. simpl.
      rewrite Hen3 by lia. simpl. by rewrite Ec, Eb.
Qed.

(** The fuel of [JSON_parse] is enough: a text that it rejects is parsed by
    no amount of fuel. *)
Lemma JSON_parse_fuel text n v rest :
  parse_value n text = Some (v, rest) →
  parse_value (2 * String.length text + 2) text = Some (v, rest).
Proof.
  intros Hp. destruct (parse_enough n) as (Hv & _).
  destruct (Hv _ _ _ Hp) as [_ Hen]. apply Hen. lia.
Qed.
End json_parse_facts.

(** ** The engram adapter *)
Section engram_facts.
Context `{JsNumber}.
Import Engram.

Lemma JSON_parse_empty_object : JSON_parse "{}" = Some (JObject []).
Proof. reflexivity. Qed.

Lemma JSON_parse_empty_text : JSON_parse "" = None.
Proof. reflexivity. Qed.

Lemma exec_completes subcommand p response :
  exec subcommand p = Resolved response ↔ completes_with p response.
Proof.
  unfold completes_with. split.
  - destruct p as [msg| |code out err]; simpl; try discriminate.
    destruct (decide (code ≠ Some 0)) as [|Hc]; [discriminate|].
    apply dec_stable in Hc as ->.
    destruct (JSON_parse _) eqn:Hp; [|discriminate].
    intros [= <-]. eauto.
  - intros (out & err & -> & Hp). unfold exec.
    destruct (decide (Some 0 ≠ Some 0)) as [Hne|_]; [by destruct Hne|].
    by rewrite Hp.
Qed.

Lemma opt_chain_member (v : value) key : opt_chain v key = member v key.
Proof. by destruct v. Qed.

Lemma is_rejected_then {A B} (m : outcome A) (f : A → B) :
  is_rejected (x ⇐ m;; Resolved (f x)) = is_rejected m.
Proof. by destruct m. Qed.

Lemma ToString_array (elems : list value) : ToString (JArray elems) = Array_join "," elems.
Proof. reflexivity. Qed.

Lemma convertible_nullish (v : value) : is_nullish v = true → convertible v = true.
Proof. by destruct v. Qed.

Lemma element_texts_rejected (elems : list value) :
  Forall (λ e, is_rejected (ToString e) = negb (convertible e)) elems →
  is_rejected (element_texts elems) = negb (forallb convertible elems).
Proof.
  induction 1 as [|e es He _ IH]; [done|]. simpl. unfold element_text.
  destruct (is_nullish e) eqn:Hn.
  - rewrite (convertible_nullish e Hn). simpl. rewrite <- IH.
    by destruct (element_texts es).
  - destruct (ToString e); simpl in He; rewrite <- (negb_involutive (convertible e)), <- He;
      simpl; [|done].
    rewrite <- IH. by destruct (element_texts es).
Qed.

(** The conversion to a string raises on the values that have no
    primitive, and on no others. *)
Lemma ToString_rejected (v : value) : is_rejected (ToString v) = negb (convertible v).
Proof.
  induction v as [| | b | n | s | elems IH | props _] using value_ind; try done.
  - rewrite ToString_array. unfold Array_join. rewrite is_rejected_then.
    change (convertible (JArray elems)) with (forallb convertible elems).
    by apply element_texts_rejected.
  - simpl. by destruct (get_own props "toString").
Qed.


Lemma Array_join_rejected (sep : string) (elems : list value) :
  is_rejected (Array_join sep elems) = negb (forallb convertible elems).
Proof.
  unfold Array_join. rewrite is_rejected_then. apply element_texts_rejected.
  apply Forall_forall. intros e _. apply ToString_rejected.
Qed.
End engram_facts.

Section engram_claims.
Context `{JsNumber}.
Import Engram.

Lemma create_total params p : ∃ handle, create params p = Resolved handle.
Proof.
  unfold create. destruct (exec "health" p) as [health|msg]; [|by eexists].
  destruct (_ || _); by eexists.
Qed.

Lemma create_live params p m :
  create params p = Resolved (Some m) ↔
  m = new_manager params
  ∧ ∃ health, completes_with p health ∧ truthy health = true
              ∧ backend_available health ≠ JBool false.
Proof.
  unfold create, backend_available. split.
  - destruct (exec "health" p) as [health|msg] eqn:He; [|discriminate].
    apply exec_completes in He. rewrite opt_chain_member.
    destruct (truthy health) eqn:Ht; simpl; [|discriminate].
    destruct (member (member health "status") "backend_available") as [| |[]| | | |] eqn:Hb;
      simpl; try discriminate; intros [= <-]; split; try done;
      exists health; rewrite Hb; done.
  - intros (-> & health & Hc & Ht & Hb).
    apply (exec_completes "health") in Hc. rewrite Hc, Ht, opt_chain_member. simpl.
    destruct (member (member health "status") "backend_available") as [| |[]| | | |];
      simpl; done.
Qed.

(** C5, as amended. [EngramMemoryManager.create] never raises. It returns
    the absent handle when the health process cannot be spawned, times out,
    exits non-zero, prints what is not JSON, or reports
    [backend_available: false] in its status object, and also when the
    health response is falsy ([null], [false], zero or the empty string). It
    returns a live handle exactly when the health request completes with a
    response that is truthy and whose [status.backend_available] is not
    equal to [false]; an object is truthy. *)
Theorem create_declines_or_lives (params : CreateParams) (p : process) :
  (∃ handle, create params p = Resolved handle)
  ∧ (declines p → create params p = Resolved None)
  ∧ (∀ health, completes_with p health → truthy health = false →
       create params p = Resolved None)
  ∧ (create params p = Resolved (Some (new_manager params)) ↔
     ∃ health, completes_with p health ∧ truthy health = true
               ∧ backend_available health ≠ JBool false)
  ∧ (∀ m, create params p = Resolved (Some m) → m = new_manager params)
  ∧ (∀ props, truthy (JObject props) = true).
Proof.
  split; [apply create_total|]. split; [|split; [|split; [|split]]].
  - intros Hd. destruct (create_total params p) as [[m|] Hm]; [|done].
    exfalso. apply create_live in Hm as (_ & health & Hc & Ht & Hb).
    destruct Hc as (out & err & -> & Hp).
    inversion Hd as [| |c o e Hne|o e Hnone|p' r Hc' Hfalse]; subst.
    + by apply Hne.
    + congruence.
    + destruct Hc' as (out' & err' & [= <- <-] & Hp'). congruence.
  - intros health Hc Ht. apply (exec_completes "health") in Hc.
    unfold create. by rewrite Hc, Ht.
  - rewrite create_live. split.
    + by intros (_ & Hh).
    + by intros Hh.
  - intros m Hm. by apply create_live in Hm as [-> _].
  - done.
Qed.

(** C10. A process that exits with code 0 and has written nothing at all
    answers with the empty object: [search] gives no results and [readFile]
    gives the empty text; neither fails. *)
Theorem empty_output_is_empty_object (subcommand : string) (m : EngramMemoryManager)
    (query : string) (opts : option (list (string * value))) (params : ReadFileParams)
    (stderr : string) :
  exec subcommand (Closed (Some 0) EmptyString stderr) = Resolved (JObject [])
  ∧ search m query opts (Closed (Some 0) EmptyString stderr) = Resolved []
  ∧ readFile m params (Closed (Some 0) EmptyString stderr)
    = Resolved {| text := EmptyString; file_path := relPath params |}.
Proof. done. Qed.

Lemma exec_exit_code subcommand (n : Z) stdout stderr :
  n ≠ 0 →
  exec subcommand (Closed (Some n) stdout stderr)
  = Rejected (if decide (stderr = EmptyString)
              then "engram adapter exited with code " +:+ pretty n else stderr).
Proof.
  intros Hn. unfold exec. rewrite decide_True by congruence. done.
Qed.

Lemma exec_invalid_JSON subcommand stdout stderr :
  stdout ≠ EmptyString → JSON_parse stdout = None →
  exec subcommand (Closed (Some 0) stdout stderr)
  = Rejected "engram adapter returned invalid JSON".
Proof.
  intros Hne Hp. unfold exec.
  destruct (decide (Some 0 ≠ Some 0)) as [Hc|_]; [by destruct Hc|].
  unfold string_or. rewrite decide_False by done. by rewrite Hp.
Qed.

(** C7, as amended. A non-zero exit code makes the call fail with what was
    written to the error stream or, when that is empty, with
    [engram adapter exited with code N]; exit code 0 with an output that is
    not empty and is not JSON makes it fail with
    [engram adapter returned invalid JSON]. *)
Theorem exec_failures (subcommand : string) (n : Z) (stdout stderr : string) :
  (n ≠ 0 →
   exec subcommand (Closed (Some n) stdout stderr)
   = Rejected (if decide (stderr = EmptyString)
               then "engram adapter exited with code " +:+ pretty n else stderr))
  ∧ (stdout ≠ EmptyString → JSON_parse stdout = None →
     exec subcommand (Closed (Some 0) stdout stderr)
     = Rejected "engram adapter returned invalid JSON").
Proof. split; [apply exec_exit_code | apply exec_invalid_JSON]. Qed.






Lemma get_own_spread (base more : list (string * value)) key :
  NoDup more.*1 →
  get_own (spread base more) key
  = match get_own more key with
    | Some v => Some v
    | None => get_own base key
    end.
Proof.
  intros Hnd. unfold spread. rewrite get_own_assign.
  - by rewrite (get_own_perm more) by (done || by rewrite own_entries_perm).
  - by rewrite own_entries_perm.
Qed.

(** The request of a search carries the [sessionKey] of the options as it
    was given. *)
Lemma search_payload_sessionKey (query : string) (opts : list (string * value)) :
  NoDup opts.*1 →
  get_own (search_payload query (Some opts)) "sessionKey" = get_own opts "sessionKey".
Proof.
  intros Hnd. unfold search_payload. simpl. rewrite get_own_spread by done.
  by destruct (get_own opts "sessionKey").
Qed.
(** So does the object that is written to the child. *)
Lemma exec_request_sessionKey (m : EngramMemoryManager) (query : string)
    (opts : list (string * value)) :
  NoDup opts.*1 →
  get_own (spread [("workspaceDir", JString (workspaceDir m))]
                  (search_payload query (Some opts))) "sessionKey"
  = get_own opts "sessionKey"
  ∧ exec_request m (search_payload query (Some opts))
    = JSON_stringify
        (JObject (spread [("workspaceDir", JString (workspaceDir m))]
                         (search_payload query (Some opts)))).
Proof.
  intros Hnd. split; [|done].
  rewrite get_own_spread.
  - rewrite search_payload_sessionKey by done.
    by destruct (get_own opts "sessionKey").
  - unfold search_payload, spread. apply assign_NoDup. simpl.
    apply NoDup_singleton.
Qed.
End engram_claims.

(** ** The fallback decorator *)
Section decorator_facts.
Context `{JsNumber}.
Import SearchManager.
Arguments evictions : simpl never.

Ltac run_methods :=
  unfold run_method, settled, search, readFile, status, sync,
    probeEmbeddingAvailability, probeVectorAvailability, close, ensureFallback,
    evictCacheEntry, close_quietly, await_optional, try_catch, bind, ret, throw,
    await, get_this, update, cache_delete in *;
  simpl in *.

Ltac cases := repeat (case_match; simplify_eq/=); try done.

Ltac count_events :=
  repeat match goal with
  | H : context [evictions ?t] |- _ =>
      let n := eval vm_compute in (evictions t) in change (evictions t) with n in H
  | |- context [evictions ?t] =>
      let n := eval vm_compute in (evictions t) in change (evictions t) with n
  end.

(** The guard of [evictCacheEntry]: an instance that was evicted leaves the
    cache alone; otherwise one call deletes at most once and sets the guard.
    An instance that degraded was evicted in the same step. *)
Lemma run_method_eviction (c : method) (e : env) (s : state) :
  let '(_, s', t) := run_method c e s in
  (cacheEvicted (this s) = true →
     cacheEvicted (this s') = true ∧ evictions t = 0%nat
     ∧ PRIMARY_MANAGER_CACHE s' = PRIMARY_MANAGER_CACHE s)
  ∧ (evictions t ≤ 1)%nat
  ∧ ((1 ≤ evictions t)%nat → cacheEvicted (this s') = true)
  ∧ ((primaryFailed (this s) = true → cacheEvicted (this s) = true) →
     primaryFailed (this s') = true → cacheEvicted (this s') = true).
Proof.
  destruct s as [[name p key fb failed err evicted] cache].
  destruct e as [[ps pr pst psy ppe ppv pc] fac [fs fr fst fsy fpe fpv fc]].
  destruct c; run_methods; cases; repeat split; intros; simplify_eq/=;
    count_events; try done; try lia; auto.
Qed.
Lemma evictions_app (t t' : list event) :
  evictions (t ++ t') = (evictions t + evictions t')%nat.
Proof. unfold evictions. by rewrite filter_app, length_app. Qed.

Lemma lifetime_eviction (calls : list (method * env * gmap string address))
    (self : FallbackMemoryManager) :
  (cacheEvicted self = true →
     cacheEvicted (lifetime calls self).1 = true ∧ evictions (lifetime calls self).2 = 0%nat)
  ∧ (evictions (lifetime calls self).2 ≤ 1)%nat
  ∧ ((primaryFailed self = true → cacheEvicted self = true) →
     primaryFailed (lifetime calls self).1 = true →
     cacheEvicted (lifetime calls self).1 = true).
Proof.
  revert self. induction calls as [|[[c e] cache_now] calls IH]; intros self.
  { simpl. repeat split; auto. }
  simpl.
  pose proof (run_method_eviction c e {| this := self; PRIMARY_MANAGER_CACHE := cache_now |})
    as Hstep.
  destruct (run_method c e _) as [[r s] t]. simpl in Hstep.
  destruct Hstep as (Hkeep & Hle & Hset & Hinv).
  specialize (IH (this s)). destruct (lifetime calls (this s)) as [self' t'].
  simpl in *. destruct IH as (IHkeep & IHle & IHinv).
  rewrite evictions_app. split; [|split].
  - intros Hev. destruct (Hkeep Hev) as (Hev' & -> & _).
    destruct (IHkeep Hev') as [-> ->]. done.
  - destruct (decide (1 ≤ evictions t)%nat) as [Hone|]; [|lia].
    destruct (IHkeep (Hset Hone)) as [_ ->]. lia.
  - intros Hself. apply IHinv. by apply Hinv.
Qed.

Lemma run_segment_guard (g : segment) (s : state) :
  keeps_guard g →
  (cacheEvicted (this s) = true →
     cacheEvicted (this (run_segment g s).1) = true ∧ evictions (run_segment g s).2 = 0%nat)
  ∧ (evictions (run_segment g s).2 ≤ 1)%nat
  ∧ ((1 ≤ evictions (run_segment g s).2)%nat → cacheEvicted (this (run_segment g s).1) = true).
Proof.
  destruct s as [[name p key fb failed err evicted] cache].
  destruct g as [f|]; intros Hg.
  - destruct (Hg {| backendName := name; primary := p; onClose := key; fallback := fb;
                    primaryFailed := failed; lastError := err; cacheEvicted := evicted |})
      as [Hev _].
    unfold run_segment, update. cbn [fst snd this]. rewrite Hev.
    change (evictions []) with 0%nat. repeat split; (done || lia).
  - unfold run_segment. run_methods. destruct evicted, key; simpl; count_events;
      repeat split; (done || lia).
Qed.

(** However the segments of overlapping calls fall, the callback is invoked
    at most once. *)
Lemma eviction_guard_interleaved (gs : list segment) (s : state) :
  Forall keeps_guard gs →
  (evictions (run_segments gs s).2 ≤ 1)%nat
  ∧ (cacheEvicted (this s) = true → evictions (run_segments gs s).2 = 0%nat).
Proof.
  intros Hgs. revert s. induction Hgs as [|g gs Hg _ IH]; intros s.
  { split; [|done]. change (0 ≤ 1)%nat. lia. }
  cbn [run_segments].
  destruct (run_segment_guard g s Hg) as (Hkeep & Hle & Hset).
  destruct (run_segment g s) as [s1 t1]. cbn [fst snd] in *.
  specialize (IH s1). destruct (run_segments gs s1) as [s2 t2]. cbn [fst snd] in *.
  destruct IH as [IHle IHzero]. rewrite evictions_app. split.
  - destruct (decide (1 ≤ evictions t1)%nat) as [Hone|]; [|lia].
    rewrite (IHzero (Hset Hone)). lia.
  - intros Hev. destruct (Hkeep Hev) as [Hev1 ->]. by rewrite IHzero.
Qed.

(** C3. Over the whole life of an instance, whatever is called in whatever
    order and whatever the outside answers, the eviction callback is invoked
    at most once. An instance that has degraded has fired its eviction, so
    closing it leaves the cache as it is then, with the entry of a newer
    instance under the same key. *)
Theorem eviction_at_most_once (name : string) (p : provider) (key : option string)
    (calls : list (method * env * gmap string address)) :
  let born := new_FallbackMemoryManager name p key in
  (evictions (lifetime calls born).2 ≤ 1)%nat
  ∧ (primaryFailed (lifetime calls born).1 = true →
     ∀ (cache_now : gmap string address) (e : env),
       let closing :=
         run_method Close e
           {| this := (lifetime calls born).1; PRIMARY_MANAGER_CACHE := cache_now |} in
       PRIMARY_MANAGER_CACHE closing.1.2 = cache_now
       ∧ evictions ((lifetime calls born).2 ++ closing.2) ≤ 1)%nat.
Proof.
  intros born.
  destruct (lifetime_eviction calls born) as (_ & Hle & Hinv).
  split; [done|]. intros Hfailed cache_now e closing.
  assert (cacheEvicted (lifetime calls born).1 = true) as Hev by (by apply Hinv).
  pose proof (run_method_eviction Close e
    {| this := (lifetime calls born).1; PRIMARY_MANAGER_CACHE := cache_now |}) as Hstep.
  fold closing in Hstep. destruct closing as [[r s] t]. simpl in *.
  destruct Hstep as (Hkeep & _). destruct (Hkeep Hev) as (_ & Hzero & Hcache).
  split; [done|]. rewrite evictions_app. lia.
Qed.

(** C2, as amended. Only a primary [search] that raises degrades an
    instance. While the primary is in use, [readFile], [sync] and the two
    probes leave the instance as it is and raise what the primary raises. A
    degraded instance stays degraded, and of its methods only [status], when
    no fallback was constructed, and [close] still call the primary. *)
Theorem degrade_state_machine (c : method) (e : env) (s : state) :
  let r := run_method c e s in
  (primaryFailed (this s) = false →
     (primaryFailed (this r.1.2) = true ↔
      (∃ query opts, c = Search query opts) ∧ is_Some (primary_rejection c e))
     ∧ (primaryFailed (this r.1.2) = true → lastError (this r.1.2) = primary_rejection c e))
  ∧ (primaryFailed (this s) = false → is_plain_delegate c = true →
     r.1.1 = primary_rejection c e ∧ r.1.2 = s)
  ∧ (primaryFailed (this s) = true → primaryFailed (this r.1.2) = true)
  ∧ (primaryFailed (this s) = true → uses_primary r.2 = true →
     (c = Status ∧ fallback (this s) = None) ∨ c = Close).
Proof.
  destruct s as [[name p key fb failed err evicted] cache].
  destruct e as [[ps pr pst psy ppe ppv pc] fac [fs fr fst fsy fpe fpv fc]].
  intros r. subst r.
  destruct c; run_methods; cases; repeat split; intros; simplify_eq/=;
    try done; try (by eauto);
    destruct_and?;
    repeat match goal with
    | H : is_Some None |- _ => by destruct H
    | H : ∃ _, _ |- _ => destruct H
    end; simplify_eq.
Qed.
(** C6. A [search] hands its query and its options, the [sessionKey] among
    them, unchanged to the implementation that serves it: to the primary
    while the primary is in use, and to the fallback once the instance is
    degraded or degrades in this call. *)
Theorem search_forwards_sessionKey (e : env) (query : string) (opts : value) (s : state) :
  let r := search e query opts s in
  (∀ role h q o, Invoke role h (CallSearch q o) ∈ r.2 →
     q = query ∧ o = opts ∧ member o "sessionKey" = member opts "sessionKey")
  ∧ (primaryFailed (this s) = false →
     head r.2 = Some (Invoke Primary (primary (this s)) (CallSearch query opts))
     ∧ ∀ results, on_search (of_primary e) = Resolved results →
         r.1.1 = Resolved results
         ∧ r.2 = [Invoke Primary (primary (this s)) (CallSearch query opts)])
  ∧ (∀ f, primaryFailed (this s) = true ∨ is_rejected (on_search (of_primary e)) = true →
     fallback_in_use e (this s) = Some f →
     last r.2 = Some (Invoke Fallback f (CallSearch query opts))
     ∧ r.1.1 = on_search (of_fallback e)).
Proof.
  destruct s as [[name p key fb failed err evicted] cache].
  destruct e as [[ps pr pst psy ppe ppv pc] fac [fs fr fst fsy fpe fpv fc]].
  intros r. subst r. unfold fallback_in_use.
  run_methods; cases; repeat split; intros; simplify_eq/=; try done;
    destruct_or?; simplify_eq/=; try done;
    repeat match goal with
    | H : _ ∈ _ :: _ |- _ => apply elem_of_cons in H as [H|H]; simplify_eq/=
    | H : _ ∈ [] |- _ => by apply elem_of_nil in H
    end; try done.
Qed.

(** What a degraded [search] does when no fallback was constructed yet. *)
Lemma degraded_search_without_handle (e : env) (query : string) (opts : value) (s : state) :
  primaryFailed (this s) = true → fallback (this s) = None →
  fallbackFactory e = Resolved None →
  search e query opts s
  = (Rejected (default "memory search unavailable" (lastError (this s))), s, [FallbackFactory]).
Proof.
  destruct s as [[name p key fb failed err evicted] cache]. simpl.
  intros -> -> Hf. run_methods. by rewrite Hf.
Qed.

(** A handle that the factory gave is kept and the factory is not asked
    again; a factory that gave none is asked again by the next call. *)
Lemma fallback_memoized (c : method) (e : env) (s : state) (f : provider) :
  fallback (this s) = Some f →
  fallback (this (run_method c e s).1.2) = Some f
  ∧ factory_calls (run_method c e s).2 = 0%nat.
Proof.
  destruct s as [[name p key fb failed err evicted] cache].
  destruct e as [[ps pr pst psy ppe ppv pc] fac [fs fr fst fsy fpe fpv fc]].
  simpl. intros ->.
  destruct c; run_methods; cases.
Qed.

Lemma fallback_failure_not_memoized (e : env) (query : string) (opts : value) (s : state) :
  primaryFailed (this s) = true → fallback (this s) = None →
  fallback_in_use e (this s) = None →
  (search e query opts s).1.2 = s
  ∧ factory_calls (search e query opts s).2 = 1%nat.
Proof.
  destruct s as [[name p key fb failed err evicted] cache].
  destruct e as [[ps pr pst psy ppe ppv pc] fac [fs fr fst fsy fpe fpv fc]].
  unfold fallback_in_use. simpl. intros -> -> Hf.
  run_methods; cases.
Qed.

Lemma fallback_constructed_once (e : env) (query : string) (opts : value) (s : state)
    (f : provider) :
  primaryFailed (this s) = true → fallback (this s) = None →
  fallbackFactory e = Resolved (Some f) →
  fallback (this (search e query opts s).1.2) = Some f
  ∧ factory_calls (search e query opts s).2 = 1%nat.
Proof.
  destruct s as [[name p key fb failed err evicted] cache].
  destruct e as [[ps pr pst psy ppe ppv pc] fac [fs fr fst fsy fpe fpv fc]].
  simpl. intros -> -> ->.
  run_methods; cases.
Qed.

(** C9, what the code does. When the fallback factory raises, a degraded
    [search] raises the error of the factory; the recorded error of the
    primary is not used. The instance is left as it was. *)
Theorem degraded_search_raises_factory_error (e : env) (query : string) (opts : value)
    (s : state) (message : string) :
  primaryFailed (this s) = true → fallback (this s) = None →
  fallbackFactory e = Rejected message →
  search e query opts s = (Rejected message, s, [FallbackFactory]).
Proof.
  destruct s as [[name p key fb failed err evicted] cache]. simpl.
  intros -> -> Hf. run_methods. by rewrite Hf.
Qed.
End decorator_facts.

(** ** The provider cache *)
Section cache_facts.
Context `{JsNumber} `{Collator}.
Import SearchManager.

Lemma qmd_hit agentId config other c w a :
  cache w !! buildPrimaryCacheKey agentId "qmd" config = Some a →
  getMemorySearchManager agentId (qmd_resolved config other) c w
  = ({| manager := Some (Wrapper a); error_message := None |}, w, []).
Proof.
  intros Hc. unfold getMemorySearchManager, qmd_branch. simpl. by rewrite Hc.
Qed.

Lemma qmd_miss agentId config other c w h :
  cache w !! buildPrimaryCacheKey agentId "qmd" config = None →
  QmdMemoryManager_create c = Resolved (Some h) →
  let key := buildPrimaryCacheKey agentId "qmd" config in
  let a := length (instances w) in
  getMemorySearchManager agentId (qmd_resolved config other) c w
  = ({| manager := Some (Wrapper a); error_message := None |},
     {| instances := instances w ++ [new_FallbackMemoryManager "qmd" h (Some key)];
        cache := <[key := a]> (cache w) |},
     [Create "qmd"]).
Proof.
  intros Hc Hq. unfold getMemorySearchManager, qmd_branch. simpl. by rewrite Hc, Hq.
Qed.

(** C1, as amended. For the qmd backend: when the constructor yields a
    handle, two calls one after the other with the same agent and with
    structurally equal configurations return the same decorator instance,
    the second call constructs nothing, and [QmdMemoryManager.create] is
    invoked at most once over both calls. No object of the configuration
    has a key twice, and [localeCompare] is a strict order on the keys that
    occur: it returns 0 for no two different keys. *)
Theorem qmd_manager_is_cached (agentId : string) (A B : value) (other1 other2 : option value)
    (c1 c2 : construction) (w : world) (h : provider) :
  wf_value A = true → strict_collation (all_keys A) → same_config A B = true →
  QmdMemoryManager_create c1 = Resolved (Some h) →
  let first := getMemorySearchManager agentId (qmd_resolved A other1) c1 w in
  let second := getMemorySearchManager agentId (qmd_resolved B other2) c2 first.1.2 in
  (∃ a, manager first.1.1 = Some (Wrapper a))
  ∧ manager second.1.1 = manager first.1.1
  ∧ second.1.2 = first.1.2
  ∧ second.2 = []
  ∧ (constructions (first.2 ++ second.2) ≤ 1)%nat.
Proof.
  intros HA HK Hsame Hq first second. subst first second.
  pose proof (buildPrimaryCacheKey_same_config agentId "qmd" A B HA HK Hsame) as Hkey.
  destruct (cache w !! buildPrimaryCacheKey agentId "qmd" A) as [a|] eqn:Hc.
  - rewrite (qmd_hit agentId A other1 c1 w a Hc). simpl.
    rewrite (qmd_hit agentId B other2 c2 w a) by (by rewrite <- Hkey).
    simpl. repeat split; eauto.
  - rewrite (qmd_miss agentId A other1 c1 w h Hc Hq). simpl.
    rewrite (qmd_hit agentId B other2 c2 _ (length (instances w))).
    + simpl. repeat split; eauto.
    + simpl. rewrite <- Hkey. apply lookup_insert_eq.
Qed.

(** The engram backend goes past the cache: every call constructs. *)
Lemma engram_always_constructs agentId config other c w h :
  backend (other : ResolvedMemoryBackendConfig) = "engram" →
  engram other = Some config →
  EngramMemoryManager_create c = Resolved (Some h) →
  getMemorySearchManager agentId other c w
  = ({| manager := Some (Wrapper (length (instances w))); error_message := None |},
     {| instances := instances w ++ [new_FallbackMemoryManager "engram" h None];
        cache := cache w |},
     [Create "engram"]).
Proof.
  intros Hb He Hc. unfold getMemorySearchManager, qmd_branch, engram_branch.
  rewrite Hb, He, Hc. simpl. by destruct (qmd other).
Qed.
End cache_facts.

(** ** Sorting keeps the content *)
Section sort_facts.
Context `{JsNumber} `{Collator}.

Lemma assign_fresh {A} (entries base : list (string * A)) :
  NoDup ((base ++ entries)%list).*1 →
  foldl (λ o kv, set_own o kv.1 kv.2) base entries = (base ++ entries)%list.
Proof.
  revert base. induction entries as [|[k v] entries IH]; intros base Hnd; simpl.
  { by rewrite app_nil_r. }
  assert (set_own base k v = (base ++ [(k, v)])%list) as ->.
  { assert (k ∉ base.*1) as Hk.
    { rewrite fmap_app in Hnd. apply NoDup_app in Hnd as (_ & Hd & _).
      intros Hin. apply (Hd k Hin). simpl. left. }
    clear -Hk. induction base as [|[k' w] base IHb]; simpl; [done|].
    rewrite decide_False.
    - f_equal. apply IHb. intros ?. apply Hk. simpl. by right.
    - intros ->. apply Hk. simpl. left. }
  rewrite IH; rewrite <- app_assoc; done.
Qed.

Lemma Object_fromEntries_NoDup {A} (entries : list (string * A)) :
  NoDup entries.*1 → Object_fromEntries entries = entries.
Proof. intros Hnd. unfold Object_fromEntries. by rewrite assign_fresh. Qed.

Lemma keyed_keys {A} (f : string → A) (keys : list string) :
  (map (λ key, (key, f key)) keys).*1 = keys.
Proof. induction keys as [|k keys IH]; [done|]. simpl in *. by f_equal. Qed.

Lemma get_own_keyed {A} (f : string → A) (keys : list string) key :
  key ∈ keys → get_own (map (λ key, (key, f key)) keys) key = Some (f key).
Proof.
  induction keys as [|k keys IH]; simpl; intros Hin.
  { by apply elem_of_nil in Hin. }
  destruct (decide (k = key)) as [->|Hne]; [done|].
  apply elem_of_cons in Hin as [?|?]; [congruence | auto].
Qed.

Lemma sorted_keys_NoDup (props : list (string * value)) :
  NoDup props.*1 → NoDup (toSorted localeCompare (Object_keys props)).
Proof.
  intros Hnd. unfold toSorted. by rewrite stable_sort_perm, Object_keys_perm.
Qed.

Lemma sortValue_object (props : list (string * value)) :
  NoDup props.*1 →
  sortValue (JObject props)
  = JObject (map (λ key, (key, default JUndefined
                                 (get_own (map (λ kv, (kv.1, sortValue kv.2)) props) key)))
                 (toSorted localeCompare (Object_keys props))).
Proof.
  intros Hnd. simpl. f_equal. apply Object_fromEntries_NoDup.
  rewrite keyed_keys. by apply sorted_keys_NoDup.
Qed.

Lemma same_config_sortValue (v : value) :
  wf_value v = true → same_config v (sortValue v) = true.
Proof.
  induction v as [| | x | x | x | xs IH | ps IH] using value_ind; intros Hwf;
    try reflexivity; try (by apply bool_decide_eq_true).
  - simpl in *. induction IH as [|x xs Hx _ IHxs]; simpl; [done|].
    simpl in Hwf. apply andb_true_iff in Hwf as [Hwx Hwxs].
    apply andb_true_iff. split; [by apply Hx | by apply IHxs].
  - pose proof Hwf as Hwf'. simpl in Hwf'.
    apply andb_true_iff in Hwf' as [Hnd Hvals].
    apply bool_decide_eq_true in Hnd. rewrite forallb_forall in Hvals.
    rewrite sortValue_object by done.
    cbn [same_config]. apply andb_true_iff. split.
    + apply bool_decide_eq_true. rewrite length_map. unfold toSorted.
      rewrite (Permutation_length (stable_sort_perm _ _)).
      by rewrite (Permutation_length (Object_keys_perm ps)), length_fmap.
    + apply forallb_forall. intros [k v] Hin%list_elem_of_In. simpl.
      rewrite (get_own_keyed (λ key, default JUndefined (get_own _ key))).
      * rewrite get_own_map, (get_own_NoDup ps k v Hnd Hin). simpl.
        rewrite Forall_forall in IH. apply (IH (k, v) Hin).
        apply (Hvals (k, v)). by apply list_elem_of_In.
      * unfold toSorted. rewrite elem_of_stable_sort, Object_keys_perm.
        apply list_elem_of_fmap. by exists (k, v).
Qed.
End sort_facts.


(** X1. Sorting keeps the content of a configuration: the sorted value has
    the same keys and, under each key, the same values; only the order of
    the keys changes. *)
Theorem sortValue_keeps_content `{JsNumber} `{Collator} (v : value) :
  wf_value v = true → same_config v (sortValue v) = true.
Proof. apply same_config_sortValue. Qed.

(** X2. Sorting twice is sorting once, and a sorted configuration has the
    fingerprint of the configuration. *)
Theorem sortValue_idempotent `{JsNumber} `{Collator} (v : value) :
  wf_value v = true → strict_collation (all_keys v) →
  sortValue (sortValue v) = sortValue v
  ∧ stableSerialize (sortValue v) = stableSerialize v.
Proof.
  intros Hwf Hk.
  assert (sortValue (sortValue v) = sortValue v) as Hid.
  { symmetry. apply sortValue_same_config; [done..|]. by apply same_config_sortValue. }
  split; [done|]. unfold stableSerialize. by rewrite Hid.
Qed.


Section key_facts.
Context `{JsNumber} `{Collator}.

Lemma colon_split (a1 a2 t1 t2 : string) :
  colon_free a1 = true → colon_free a2 = true →
  a1 +:+ ":" +:+ t1 = a2 +:+ ":" +:+ t2 → a1 = a2 ∧ t1 = t2.
Proof.
  revert a2. induction a1 as [|c a1 IH]; intros [|d a2] H1 H2 Heq; simpl in *.
  - injection Heq as Heq. by subst.
  - injection Heq as Hd _. subst d. unfold colon_free in H2. simpl in H2. done.
  - injection Heq as Hc _. subst c. unfold colon_free in H1. simpl in H1. done.
  - injection Heq as Hc Heq. subst d. unfold colon_free in *. simpl in *.
    apply andb_true_iff in H1 as [_ H1]. apply andb_true_iff in H2 as [_ H2].
    destruct (IH a2 H1 H2 Heq) as [-> ->]. done.
Qed.
End key_facts.


(** X3. The cache key tells the agent, the backend and the fingerprint
    apart: two keys built from identifiers without a colon are equal only
    when the agents, the backends and the fingerprints are. *)
Theorem cache_key_separates `{JsNumber} `{Collator}
    (agent1 agent2 backend1 backend2 : string) (config1 config2 : value) :
  colon_free agent1 = true → colon_free agent2 = true →
  colon_free backend1 = true → colon_free backend2 = true →
  buildPrimaryCacheKey agent1 backend1 config1 = buildPrimaryCacheKey agent2 backend2 config2 →
  agent1 = agent2 ∧ backend1 = backend2
  ∧ template (stableSerialize config1) = template (stableSerialize config2).
Proof.
  intros Ha1 Ha2 Hb1 Hb2 Hkey. unfold buildPrimaryCacheKey in Hkey.
  apply colon_split in Hkey as [-> Hkey]; [|done..].
  apply colon_split in Hkey as [-> Hkey]; done.
Qed.


(** ** The engram adapter, the rest *)
Section engram_more.
Context `{JsNumber}.
Import Engram.


(** X15. [readFile] returns exactly when the process completes with a
    response that is not [null] and whose [content] is absent or an array
    of lines that have a primitive; the text is then the lines joined by
    line feeds and the path is the one that was asked for. The join raises
    exactly when a line has no primitive. *)
Theorem readFile_resolves_exactly_when (m : EngramMemoryManager) (params : ReadFileParams) (p : process)
    (r : FileText) :
  (readFile m params p = Resolved r ↔
   ∃ response lines,
     completes_with p response ∧ is_nullish response = false
     ∧ nullish_or (content_of response) (JArray []) = JArray lines
     ∧ forallb convertible lines = true
     ∧ Array_join (String (ascii_of_nat 10) EmptyString) lines = Resolved (text r)
     ∧ file_path r = relPath params)
  ∧ (∀ sep lines, is_rejected (Array_join sep lines) = negb (forallb convertible lines)).
Proof.
  split; [|apply Array_join_rejected].
  unfold readFile, content_of. split.
  - destruct (exec "fetch" p) as [response|] eqn:He; simpl; [|done].
    apply exec_completes in He. unfold get_prop.
    destruct (is_nullish response) eqn:Hn; simpl; [done|].
    rewrite opt_chain_member.
    destruct (nullish_or _ _) eqn:Hc; try done.
    pose proof (Array_join_rejected (String (ascii_of_nat 10) EmptyString) elems) as Hj.
    destruct (Array_join _ elems) as [joined|] eqn:Hjoin; simpl; [|done].
    intros [= <-]. exists response, elems. simpl in *.
    destruct (forallb convertible elems); done.
  - intros (response & lines & Hc & Hn & Hl & _ & Hj & Hpath).
    apply (exec_completes "fetch") in Hc. rewrite Hc. simpl. unfold get_prop.
    rewrite Hn. simpl. rewrite opt_chain_member, Hl, Hj. simpl.
    destruct r. simpl in *. by subst.
Qed.

(** X16. An error of the process reaches the caller of [search], [readFile]
    and [sync] with its message unchanged; [sync] returns exactly when the
    process completes, whatever it answers. *)
Theorem process_failure_reaches_caller (m : EngramMemoryManager) (query : string)
    (opts : option (list (string * value))) (params : ReadFileParams) (p : process) :
  (∀ message, exec "search" p = Rejected message → search m query opts p = Rejected message)
  ∧ (∀ message, exec "fetch" p = Rejected message → readFile m params p = Rejected message)
  ∧ (∀ message, exec "flush" p = Rejected message → sync m p = Rejected message)
  ∧ (sync m p = Resolved () ↔ ∃ response, completes_with p response).
Proof.
  unfold search, readFile, sync. split; [by intros message ->|].
  split; [by intros message ->|]. split; [by intros message ->|]. split.
  - destruct (exec "flush" p) as [response|] eqn:He; simpl; [|done].
    apply exec_completes in He. eauto.
  - intros [response Hc]. apply (exec_completes "flush") in Hc. by rewrite Hc.
Qed.

(** X17. The object that is serialized for the child on a search holds
    every option of the caller as it was given, the query and the workspace
    directory of the manager unless an option has their name, and nothing
    else. *)
Theorem search_request_fields (m : EngramMemoryManager) (query : string)
    (opts : list (string * value)) (key : string) :
  NoDup opts.*1 →
  get_own (spread [("workspaceDir", JString (workspaceDir m))]
                  (search_payload query (Some opts))) key
  = match get_own opts key with
    | Some v => Some v
    | None =>
        if decide (key = "query") then Some (JString query)
        else if decide (key = "workspaceDir") then Some (JString (workspaceDir m))
        else None
    end.
Proof.
  intros Hnd. rewrite get_own_spread.
  - unfold search_payload. simpl. rewrite get_own_spread by done.
    destruct (get_own opts key); [done|]. simpl.
    repeat case_decide; simplify_eq; done.
  - unfold search_payload, spread. apply assign_NoDup. simpl. apply NoDup_singleton.
Qed.

Lemma new_manager_settings (params : CreateParams) :
  command (new_manager params) ≠ EmptyString
  ∧ workspaceDir (new_manager params) = param_workspaceDir params
  ∧ (∀ c, param_command params = Some c → c ≠ EmptyString → command (new_manager params) = c)
  ∧ (param_command params = None ∨ param_command params = Some EmptyString →
     command (new_manager params) = DEFAULT_COMMAND)
  ∧ (∀ t, param_timeoutMs params = Some t → timeoutMs (new_manager params) = t)
  ∧ (param_timeoutMs params = None → timeoutMs (new_manager params) = DEFAULT_TIMEOUT_MS).
Proof.
  destruct params as [wd [c|] [t|]]; unfold new_manager, string_or; simpl;
    repeat split; try done; intros; simplify_eq/=; try done;
    try (case_decide; simplify_eq/=; done);
    try (destruct_or?; simplify_eq/=; done).
Qed.

(** X18. A handle that [create] returns never has an empty command: a
    command that is absent or empty is replaced by the default one, while a
    timeout is replaced only when it is absent; the workspace directory is
    the one given. *)
Theorem created_manager_settings (params : CreateParams) (p : process)
    (m : EngramMemoryManager) :
  create params p = Resolved (Some m) →
  command m ≠ EmptyString
  ∧ workspaceDir m = param_workspaceDir params
  ∧ (∀ c, param_command params = Some c → c ≠ EmptyString → command m = c)
  ∧ (param_command params = None ∨ param_command params = Some EmptyString →
     command m = DEFAULT_COMMAND)
  ∧ (∀ t, param_timeoutMs params = Some t → timeoutMs m = t)
  ∧ (param_timeoutMs params = None → timeoutMs m = DEFAULT_TIMEOUT_MS).
Proof.
  intros Hm. apply create_live in Hm as [-> _]. apply new_manager_settings.
Qed.
End engram_more.


(** ** The fallback decorator, the rest *)
Section decorator_more.
Context `{JsNumber}.
Import SearchManager.

Ltac run_methods :=
  unfold run_method, settled, search, readFile, status, sync,
    probeEmbeddingAvailability, probeVectorAvailability, close, ensureFallback,
    evictCacheEntry, close_quietly, await_optional, try_catch, bind, ret, throw,
    await, get_this, update, cache_delete in *;
  simpl in *.

Ltac cases := repeat (case_match; simplify_eq/=); try done.

Lemma run_method_frame (c : method) (e : env) (s : state) :
  let r := run_method c e s in
  onClose (this r.1.2) = onClose (this s)
  ∧ ((PRIMARY_MANAGER_CACHE r.1.2 = PRIMARY_MANAGER_CACHE s
      ∧ cacheEvicted (this r.1.2) = cacheEvicted (this s))
     ∨ (cacheEvicted (this s) = false ∧ cacheEvicted (this r.1.2) = true
        ∧ PRIMARY_MANAGER_CACHE r.1.2 = evicted_cache (this s) (PRIMARY_MANAGER_CACHE s)))
  ∧ ((primaryFailed (this s) = true → cacheEvicted (this s) = true) →
     primaryFailed (this r.1.2) = true → cacheEvicted (this r.1.2) = true).
Proof.
  destruct s as [[name p key fb failed err evicted] cache].
  destruct e as [[ps pr pst psy ppe ppv pc] fac [fs fr fst fsy fpe fpv fc]].
  intros r. subst r. unfold evicted_cache.
  destruct c; run_methods; cases; repeat split; intros; simplify_eq/=; auto.
Qed.

Lemma run_method_degraded (c : method) (e : env) (s : state) :
  primaryFailed (this s) = true →
  primaryFailed (this (run_method c e s).1.2) = true
  ∧ existsb is_primary_data_use (run_method c e s).2 = false.
Proof.
  destruct s as [[name p key fb failed err evicted] cache].
  destruct e as [[ps pr pst psy ppe ppv pc] fac [fs fr fst fsy fpe fpv fc]].
  simpl. intros ->.
  destruct c; run_methods; cases.
Qed.

(** X12. Once degraded, always degraded: through the rest of its life the
    instance never calls [search], [readFile], [sync] or a probe of the
    primary again, whatever is called and whatever the primary would
    answer; only [status] and [close] can still reach the primary. *)
Theorem degraded_for_life (calls : list (method * env * gmap string address))
    (self : FallbackMemoryManager) :
  primaryFailed self = true →
  primaryFailed (lifetime calls self).1 = true
  ∧ existsb is_primary_data_use (lifetime calls self).2 = false.
Proof.
  revert self. induction calls as [|[[c e] cache_now] calls IH]; intros self Hf; [done|].
  simpl.
  destruct (run_method_degraded c e {| this := self; PRIMARY_MANAGER_CACHE := cache_now |} Hf)
    as [Hf' Hno].
  destruct (run_method c e _) as [[r s] t]. simpl in *.
  destruct (IH _ Hf') as [Hf'' Hno'].
  destruct (lifetime calls (this s)) as [self' t']. simpl in *.
  split; [done|]. by rewrite existsb_app, Hno, Hno'.
Qed.

(** X11. A fallback that was constructed is kept for the rest of the life
    of the instance, and the factory is never called again. *)
Theorem fallback_is_kept_for_life (calls : list (method * env * gmap string address))
    (self : FallbackMemoryManager) (f : provider) :
  fallback self = Some f →
  fallback (lifetime calls self).1 = Some f
  ∧ factory_calls (lifetime calls self).2 = 0%nat.
Proof.
  revert self. induction calls as [|[[c e] cache_now] calls IH]; intros self Hf; [done|].
  simpl.
  destruct (fallback_memoized c e {| this := self; PRIMARY_MANAGER_CACHE := cache_now |} f Hf)
    as [Hf' Hno].
  destruct (run_method c e _) as [[r s] t]. simpl in *.
  destruct (IH _ Hf') as [Hf'' Hno'].
  destruct (lifetime calls (this s)) as [self' t']. simpl in *.
  split; [done|]. unfold factory_calls in *. rewrite filter_app, length_app. lia.
Qed.

Lemma annotate_fields (st : list (string * value)) (from reason : string) :
  wf_value (JObject st) = true →
  get_own (annotate st from reason) "fallback"
  = Some (JObject [("from", JString from); ("reason", JString reason)])
  ∧ (∀ key, key ≠ "fallback" → key ≠ "custom" →
       get_own (annotate st from reason) key = get_own st key)
  ∧ ∃ custom,
      get_own (annotate st from reason) "custom" = Some (JObject custom)
      ∧ get_own custom "fallback"
        = Some (JObject [("disabled", JBool true); ("reason", JString reason)])
      ∧ ∀ key, key ≠ "fallback" → get_own custom key = get_own (custom_of st) key.
Proof.
  intros Hwf. simpl in Hwf. apply andb_true_iff in Hwf as [Hnd Hvals].
  apply bool_decide_eq_true in Hnd. rewrite forallb_forall in Hvals.
  assert (NoDup (custom_of st).*1) as Hndc.
  { unfold custom_of. destruct (get_own st "custom") as [[| | | | | |c]|] eqn:Hc;
      try apply NoDup_nil_2.
    apply get_own_Some, list_elem_of_In, Hvals in Hc. simpl in Hc.
    apply andb_true_iff in Hc as [Hc _]. by apply bool_decide_eq_true in Hc. }
  assert (match nullish_or (member (JObject st) "custom") (JObject []) with
          | JObject c => c
          | _ => []
          end = custom_of st) as Hcustom.
  { unfold custom_of, member, nullish_or.
    destruct (get_own st "custom") as [[]|]; done. }
  unfold annotate. rewrite Hcustom.
  assert (∀ (base : list (string * value)) key,
            NoDup base.*1 → get_own (spread [] base) key = get_own base key) as Hcopy.
  { intros base key Hb. rewrite get_own_spread by done. by destruct (get_own base key). }
  assert (∀ (a b : string) (x y : value), a ≠ b → NoDup [(a, x); (b, y)].*1) as Hnd2.
  { intros a b x y Hab. simpl. apply NoDup_cons. split.
    - by intros ->%list_elem_of_singleton.
    - apply NoDup_singleton. }
  split; [|split].
  - rewrite get_own_spread by (by apply Hnd2). done.
  - intros key Hk1 Hk2. rewrite get_own_spread by (by apply Hnd2). simpl.
    rewrite !decide_False by done. by apply Hcopy.
  - eexists. split; [|split].
    + rewrite get_own_spread by (by apply Hnd2). simpl. done.
    + rewrite get_own_spread by apply NoDup_singleton. done.
    + intros key Hk. rewrite get_own_spread by apply NoDup_singleton. simpl.
      rewrite decide_False by done. by apply Hcopy.
Qed.

Lemma status_degraded (e : env) (s : state) :
  primaryFailed (this s) = true →
  (status e s).1.1
  = Resolved (annotate (underlying_status e (this s)) (backendName (this s))
                       (default "unknown" (lastError (this s))))
  ∧ (status e s).1.2 = s
  ∧ factory_calls (status e s).2 = 0%nat.
Proof.
  destruct s as [[name p key fb failed err evicted] cache]. simpl. intros ->.
  unfold underlying_status. run_methods. by destruct fb.
Qed.

Lemma status_active (e : env) (s : state) :
  primaryFailed (this s) = false →
  status e s
  = (Resolved (on_status (of_primary e)), s, [Invoke Primary (primary (this s)) CallStatus]).
Proof.
  destruct s as [[name p key fb failed err evicted] cache]. simpl. intros ->. done.
Qed.

Lemma search_degrades (e : env) (query : string) (opts : value) (s : state) (message : string) :
  primaryFailed (this s) = false →
  on_search (of_primary e) = Rejected message →
  let r := search e query opts s in
  let self := this s in
  r.1.1 = match fallback_in_use e self with
          | Some _ => on_search (of_fallback e)
          | None =>
              Rejected match fallbackFactory e with
                       | Rejected factory_message => factory_message
                       | Resolved _ => message
                       end
          end
  ∧ this r.1.2
    = with_fallback (fallback_in_use e self)
        (with_cacheEvicted true (with_lastError (Some message) (with_primaryFailed true self)))
  ∧ PRIMARY_MANAGER_CACHE r.1.2 = evicted_cache self (PRIMARY_MANAGER_CACHE s)
  ∧ r.2 = ([Invoke Primary (primary self) (CallSearch query opts)]
           ++ (if on_close (of_primary e) is Some _
               then [Invoke Primary (primary self) CallClose] else [])
           ++ eviction_events self
           ++ (if fallback self is Some _ then [] else [FallbackFactory])
           ++ match fallback_in_use e self with
              | Some f => [Invoke Fallback f (CallSearch query opts)]
              | None => []
              end)%list.
Proof.
  destruct s as [[name p key fb failed err evicted] cache].
  destruct e as [[ps pr pst psy ppe ppv pc] fac [fs fr fst fsy fpe fpv fc]].
  simpl. intros -> ->. unfold fallback_in_use, evicted_cache, eviction_events.
  run_methods. cases.
Qed.

(** X10. [close] closes the primary, then the fallback, then evicts. When
    closing the primary raises, the error reaches the caller, the fallback
    is not closed and nothing is evicted; a [close] that raises leaves the
    instance and the cache as they were, and one that returns has fired
    the eviction, unless it had fired before. *)
Theorem close_evicts_unless_it_fails (e : env) (s : state) :
  let r := close e s in
  (∀ message, on_close (of_primary e) = Some (Rejected message) →
     r = (Rejected message, s, [Invoke Primary (primary (this s)) CallClose]))
  ∧ (is_rejected r.1.1 = true → r.1.2 = s ∧ evictions r.2 = 0%nat)
  ∧ (is_rejected r.1.1 = false →
     cacheEvicted (this r.1.2) = true
     ∧ PRIMARY_MANAGER_CACHE r.1.2 = evicted_cache (this s) (PRIMARY_MANAGER_CACHE s)
     ∧ ∀ key, onClose (this s) = Some key → PRIMARY_MANAGER_CACHE r.1.2 !! key = None
              ∨ cacheEvicted (this s) = true).
Proof.
  destruct s as [[name p key fb failed err evicted] cache].
  destruct e as [[ps pr pst psy ppe ppv pc] fac [fs fr fst fsy fpe fpv fc]].
  intros r. subst r. unfold evicted_cache.
  run_methods; cases; repeat split; intros; simplify_eq/=; try done;
    try (left; apply lookup_delete_eq); auto.
Qed.

(** X13. A degraded instance for which the factory has no fallback: [sync]
    does nothing, the vector probe answers [false], the embedding probe
    answers [ok: false] with the recorded error, and [readFile] raises the
    recorded error; the instance is unchanged and the factory was asked
    once. *)
Theorem degraded_without_fallback_defaults (e : env) (s : state) (params : ReadFileParams)
    (sync_params : value) :
  primaryFailed (this s) = true → fallback (this s) = None →
  fallbackFactory e = Resolved None →
  readFile e params s
  = (Rejected (default "memory read unavailable" (lastError (this s))), s, [FallbackFactory])
  ∧ sync e sync_params s = (Resolved (), s, [FallbackFactory])
  ∧ probeEmbeddingAvailability e s
    = (Resolved {| ok := false;
                   error := Some (default "memory embeddings unavailable"
                                    (lastError (this s))) |}, s, [FallbackFactory])
  ∧ probeVectorAvailability e s = (Resolved false, s, [FallbackFactory]).
Proof.
  destruct s as [[name p key fb failed err evicted] cache]. simpl.
  intros -> -> Hf. run_methods. by rewrite Hf.
Qed.

(** X8. The status of a degraded instance is the status of its fallback, or
    of the primary when no fallback was constructed, with two additions:
    [fallback] names the backend and the recorded error, and
    [custom.fallback] says that the fallback is disabled. Every other field
    of the status and of its [custom] object is kept, and the factory is not
    called. *)
Theorem degraded_status_is_annotated (e : env) (s : state) :
  primaryFailed (this s) = true →
  wf_value (JObject (underlying_status e (this s))) = true →
  let reason := default "unknown" (lastError (this s)) in
  ∃ report,
    (status e s).1.1 = Resolved report
    ∧ (status e s).1.2 = s
    ∧ factory_calls (status e s).2 = 0%nat
    ∧ get_own report "fallback"
      = Some (JObject [("from", JString (backendName (this s))); ("reason", JString reason)])
    ∧ (∀ key, key ≠ "fallback" → key ≠ "custom" →
         get_own report key = get_own (underlying_status e (this s)) key)
    ∧ ∃ custom,
        get_own report "custom" = Some (JObject custom)
        ∧ get_own custom "fallback"
          = Some (JObject [("disabled", JBool true); ("reason", JString reason)])
        ∧ ∀ key, key ≠ "fallback" →
            get_own custom key = get_own (custom_of (underlying_status e (this s))) key.
Proof.
  intros Hf Hwf reason.
  destruct (status_degraded e s Hf) as (Hr & Hs & Hn).
  destruct (annotate_fields (underlying_status e (this s)) (backendName (this s)) reason Hwf)
    as (Hfb & Hkeep & Hcustom).
  exists (annotate (underlying_status e (this s)) (backendName (this s)) reason).
  split; [exact Hr|]. split; [exact Hs|]. split; [exact Hn|].
  split; [exact Hfb|]. split; [exact Hkeep|exact Hcustom].
Qed.

(** X9. The search on which the primary fails is itself served by the
    fallback: it returns what the fallback returns. The instance records
    the error, is degraded and evicted, the primary is closed when it can
    be closed, and a failure of that close changes nothing. Without a
    fallback the search raises. *)
Theorem failing_search_is_served_by_fallback (e : env) (query : string) (opts : value)
    (s : state) (message : string) :
  primaryFailed (this s) = false →
  on_search (of_primary e) = Rejected message →
  let r := search e query opts s in
  let self := this s in
  r.1.1 = match fallback_in_use e self with
          | Some _ => on_search (of_fallback e)
          | None =>
              Rejected match fallbackFactory e with
                       | Rejected factory_message => factory_message
                       | Resolved _ => message
                       end
          end
  ∧ this r.1.2
    = with_fallback (fallback_in_use e self)
        (with_cacheEvicted true (with_lastError (Some message) (with_primaryFailed true self)))
  ∧ PRIMARY_MANAGER_CACHE r.1.2 = evicted_cache self (PRIMARY_MANAGER_CACHE s)
  ∧ r.2 = ([Invoke Primary (primary self) (CallSearch query opts)]
           ++ (if on_close (of_primary e) is Some _
               then [Invoke Primary (primary self) CallClose] else [])
           ++ eviction_events self
           ++ (if fallback self is Some _ then [] else [FallbackFactory])
           ++ match fallback_in_use e self with
              | Some f => [Invoke Fallback f (CallSearch query opts)]
              | None => []
              end)%list.
Proof. apply search_degrades. Qed.
End decorator_more.


(** ** The cache over the life of a program *)
Section world_facts.
Context `{JsNumber} `{Collator}.
Import SearchManager.

Lemma acquire_world agentId resolved c w :
  let w' := (getMemorySearchManager agentId resolved c w).1.2 in
  w' = w
  ∨ (∃ key h, cache w !! key = None
      ∧ w' = {| instances := (instances w ++ [new_FallbackMemoryManager "qmd" h (Some key)])%list;
                cache := <[key := length (instances w)]> (cache w) |})
  ∨ (∃ h, w' = {| instances := (instances w ++ [new_FallbackMemoryManager "engram" h None])%list;
                  cache := cache w |}).
Proof.
  unfold getMemorySearchManager, qmd_branch, engram_branch, builtin, allocate, cache_set.
  destruct resolved as [b q g]. simpl.
  repeat (case_match; simplify_eq/=); eauto 10.
Qed.

Lemma consistent_empty : cache_consistent empty_world.
Proof.
  split.
  - intros key a. simpl. rewrite lookup_empty. split; [done|].
    intros (m & Hm & _). simpl in Hm. by rewrite lookup_nil in Hm.
  - intros a m Hm. simpl in Hm. by rewrite lookup_nil in Hm.
Qed.

Lemma lookup_allocated (l : list FallbackMemoryManager) (m m' : FallbackMemoryManager)
    (a : nat) :
  ((l ++ [m])%list : list FallbackMemoryManager) !! a = Some m' ↔ l !! a = Some m' ∨ (a = length l ∧ m' = m).
Proof.
  destruct (decide (a < length l)%nat) as [Hlt|Hge].
  - rewrite lookup_app_l by done. split; [by left|].
    intros [?|[-> _]]; [done|lia].
  - rewrite lookup_app_r by lia. rewrite (lookup_ge_None_2 l a) by lia.
    destruct (a - length l)%nat as [|n] eqn:Hn; simpl.
    + split; [intros [= <-]; right; split; [lia|done]|].
      by intros [?|[_ ->]].
    + rewrite lookup_nil. split; [done|]. intros [?|[-> _]]; [done|lia].
Qed.

Lemma consistent_acquire agentId resolved c w :
  cache_consistent w → cache_consistent (getMemorySearchManager agentId resolved c w).1.2.
Proof.
  intros [Hc Hd].
  destruct (acquire_world agentId resolved c w) as [->|[(key & h & Hmiss & ->)|(h & ->)]];
    [done| |]; split; simpl.
  - intros k a. rewrite lookup_insert. case_decide as Hk.
    + subst k. split.
      * intros [= <-]. eexists. rewrite lookup_allocated. eauto.
      * intros (m & [Hm|[-> ->]]%lookup_allocated & Hk & He); [|done].
        assert (cache w !! key = Some a) as Hin by (apply Hc; eauto). congruence.
    + rewrite Hc. split.
      * intros (m & Hm & ?). exists m. rewrite lookup_allocated. eauto.
      * intros (m & [Hm|[-> ->]]%lookup_allocated & Hk' & He); [eauto|].
        simpl in Hk'. congruence.
  - intros a m [Hm|[-> ->]]%lookup_allocated; [eauto|done].
  - intros k a. rewrite Hc. split.
    + intros (m & Hm & ?). exists m. rewrite lookup_allocated. eauto.
    + intros (m & [Hm|[-> ->]]%lookup_allocated & Hk' & He); [eauto|done].
  - intros a m [Hm|[-> ->]]%lookup_allocated; [eauto|done].
Qed.

Lemma lookup_updated (l : list FallbackMemoryManager) a a' m m' :
  l !! a = Some m →
  <[a := m']> l !! a' = if decide (a = a') then Some m' else l !! a'.
Proof.
  intros Hm. case_decide as Ha.
  - subst a'. apply list_lookup_insert_eq. by eapply lookup_lt_Some.
  - by apply list_lookup_insert_ne.
Qed.

Lemma consistent_call a c e w :
  cache_consistent w → cache_consistent (call_method a c e w).
Proof.
  intros [Hc Hd]. unfold call_method.
  destruct (instances w !! a) as [self|] eqn:Hself; [|done].
  pose proof (run_method_frame c e {| this := self; PRIMARY_MANAGER_CACHE := cache w |})
    as (Hon & Hcache & Hdeg).
  destruct (run_method c e _) as [[r s] t]. simpl in *.
  specialize (Hdeg (Hd a self Hself)).
  split; simpl.
  - intros k b. setoid_rewrite (lookup_updated _ a b self (this s) Hself).
    destruct Hcache as [[-> Hev]|(Hev & Hev' & ->)].
    + rewrite Hc. split.
      * intros (m & Hm & Hk & He). case_decide as Hab.
        -- subst b. exists (this s). simplify_eq. rewrite Hon, Hev. done.
        -- eauto.
      * intros (m & Hm & Hk & He). case_decide as Hab.
        -- subst b. simplify_eq. exists self. rewrite <- Hon, <- Hev. done.
        -- eauto.
    + unfold evicted_cache. rewrite Hev.
      destruct (onClose self) as [key|] eqn:Hkey.
      * assert (cache w !! key = Some a) as Hin by (apply Hc; eauto).
        rewrite lookup_delete. case_decide as Hk.
        -- subst k. split; [done|]. intros (m & Hm & Hk & He). case_decide as Hab.
           ++ simplify_eq. congruence.
           ++ assert (cache w !! key = Some b) by (apply Hc; eauto). congruence.
        -- rewrite Hc. split.
           ++ intros (m & Hm & Hk' & He). case_decide as Hab; [simplify_eq; congruence|].
              eauto.
           ++ intros (m & Hm & Hk' & He). case_decide as Hab; [simplify_eq; congruence|].
              eauto.
      * rewrite Hc. split.
        -- intros (m & Hm & Hk' & He). case_decide as Hab; [simplify_eq; congruence|].
           eauto.
        -- intros (m & Hm & Hk' & He). case_decide as Hab; [simplify_eq; congruence|].
           eauto.
  - intros b m Hm. erewrite lookup_updated in Hm by done.
    case_decide as Hab; [|by eapply Hd]. by injection Hm as <-.
Qed.

Lemma consistent_perform x w : cache_consistent w → cache_consistent (perform x w).
Proof. destruct x; [apply consistent_acquire | apply consistent_call]. Qed.

Lemma consistent_history xs : cache_consistent (history xs).
Proof.
  unfold history. generalize consistent_empty. generalize empty_world.
  induction xs as [|x xs IH]; intros w Hw; simpl; [done|].
  by apply IH, consistent_perform.
Qed.
Lemma declined_qmd agentId config other c w :
  cache w !! buildPrimaryCacheKey agentId "qmd" config = None →
  yields_handle (QmdMemoryManager_create c) = false →
  getMemorySearchManager agentId (qmd_resolved config other) c w
  = (builtin_result c, w, [Create "qmd"; IndexGet]).
Proof.
  intros Hmiss Hq.
  unfold getMemorySearchManager, qmd_branch, engram_branch, builtin, builtin_result.
  simpl. rewrite Hmiss. unfold yields_handle in Hq.
  destruct (QmdMemoryManager_create c) as [[h|]|]; try done;
    destruct (MemoryIndexManager_get c); done.
Qed.

Lemma declined_engram agentId (resolved : ResolvedMemoryBackendConfig) c w :
  backend resolved = "engram" → is_Some (engram resolved) →
  yields_handle (EngramMemoryManager_create c) = false →
  getMemorySearchManager agentId resolved c w
  = (builtin_result c, w, [Create "engram"; IndexGet]).
Proof.
  intros Hb Hg He.
  unfold getMemorySearchManager, qmd_branch, engram_branch, builtin, builtin_result.
  rewrite Hb. simpl. rewrite bool_decide_eq_true_2 by done. simpl.
  unfold yields_handle in He.
  destruct (qmd resolved); destruct (EngramMemoryManager_create c) as [[h|]|]; try done;
    destruct (MemoryIndexManager_get c); done.
Qed.

(** X6. A construction that yields no handle, or raises, is not cached:
    the call falls back to the builtin index, constructs once and leaves
    the cache and the instances as they were, so that the next call tries
    again. *)
Theorem declined_construction_is_not_cached (agentId : string) (config : value)
    (other : option value) (resolved : ResolvedMemoryBackendConfig)
    (c : construction) (w : world) :
  (cache w !! buildPrimaryCacheKey agentId "qmd" config = None →
   yields_handle (QmdMemoryManager_create c) = false →
   getMemorySearchManager agentId (qmd_resolved config other) c w
   = (builtin_result c, w, [Create "qmd"; IndexGet]))
  ∧ (backend resolved = "engram" → is_Some (engram resolved) →
     yields_handle (EngramMemoryManager_create c) = false →
     getMemorySearchManager agentId resolved c w
     = (builtin_result c, w, [Create "engram"; IndexGet])).
Proof. split; [apply declined_qmd | apply declined_engram]. Qed.

(** X7. An acquisition never returns both a manager and an error message.
    An error message is the error of the builtin index. The result holds
    neither a manager nor a message only when the builtin index was asked
    and gave [null], which is passed on without a test. The builtin index
    is returned with the cache and the instances as they were. At most one
    provider constructor is invoked and no instance is dropped. *)
Theorem acquisition_never_manager_and_error (agentId : string)
    (resolved : ResolvedMemoryBackendConfig) (c : construction) (w : world) :
  let r := getMemorySearchManager agentId resolved c w in
  (is_Some (error_message r.1.1) → manager r.1.1 = None)
  ∧ (∀ message, error_message r.1.1 = Some message →
       MemoryIndexManager_get c = Rejected message ∧ r.1.2 = w)
  ∧ (manager r.1.1 = None → error_message r.1.1 = None →
     MemoryIndexManager_get c = Resolved None ∧ r.1.2 = w)
  ∧ (∀ h, manager r.1.1 = Some (Direct h) →
       MemoryIndexManager_get c = Resolved (Some h) ∧ r.1.2 = w)
  ∧ (constructions r.2 ≤ 1)%nat
  ∧ (length (instances w) ≤ length (instances r.1.2))%nat.
Proof.
  unfold getMemorySearchManager, qmd_branch, engram_branch, builtin, allocate, cache_set.
  destruct resolved as [b q g]. simpl.
  repeat (case_match; simplify_eq/=);
    (split; [intros Hx; first [done | by destruct Hx as [? [=]]]|]);
    repeat split; intros; simplify_eq/=; rewrite ?length_app; simpl;
    try done; try lia;
    repeat match goal with
    | Hb : _ && _ = true |- _ => apply andb_true_iff in Hb as [? ?]
    | Hb : bool_decide _ = true |- _ => apply bool_decide_eq_true in Hb
    | Hm : Direct <$> ?o = _ |- _ => destruct o; simplify_eq/=
    end; simplify_eq; try done; vm_compute; lia.
Qed.

(** X4. Whatever a program has acquired and called, an entry of the cache
    points to an instance that was created for the key of the entry, has
    not fired its eviction and has not degraded: the cache never serves a
    degraded decorator. *)
Theorem cache_serves_live_instances (xs : list action) (key : string) (a : address) :
  cache (history xs) !! key = Some a →
  ∃ m, instances (history xs) !! a = Some m
       ∧ onClose m = Some key ∧ cacheEvicted m = false ∧ primaryFailed m = false.
Proof.
  intros Hc. destruct (consistent_history xs) as [Hcache Hdeg].
  apply Hcache in Hc as (m & Hm & Hk & He). exists m. repeat split; try done.
  destruct (primaryFailed m) eqn:Hf; [|done].
  by rewrite (Hdeg a m Hm Hf) in He.
Qed.

(** X5. When the search of a cached decorator fails its primary, the entry
    leaves the cache, and the next acquisition with the same key constructs
    a new decorator, different from the degraded one, and caches it. *)
Theorem degraded_wrapper_is_replaced (agentId : string) (config : value)
    (other : option value) (c : construction) (w : world) (a : address) (e : env)
    (query : string) (opts : value) (h : provider) :
  let key := buildPrimaryCacheKey agentId "qmd" config in
  cache_consistent w →
  cache w !! key = Some a →
  is_rejected (on_search (of_primary e)) = true →
  QmdMemoryManager_create c = Resolved (Some h) →
  let w1 := call_method a (Search query opts) e w in
  let r := getMemorySearchManager agentId (qmd_resolved config other) c w1 in
  cache w1 !! key = None
  ∧ manager r.1.1 = Some (Wrapper (length (instances w)))
  ∧ length (instances w) ≠ a
  ∧ r.2 = [Create "qmd"]
  ∧ cache r.1.2 !! key = Some (length (instances w)).
Proof.
  intros key [Hcache Hdeg] Hin Hrej Hq w1 r.
  apply Hcache in Hin as (m & Hm & Hk & He).
  assert (primaryFailed m = false) as Hf.
  { destruct (primaryFailed m) eqn:Hf; [|done]. by rewrite (Hdeg a m Hm Hf) in He. }
  destruct (on_search (of_primary e)) as [|message] eqn:Hs; [done|].
  pose proof (search_degrades e query opts {| this := m; PRIMARY_MANAGER_CACHE := cache w |}
                message Hf Hs) as (_ & _ & Hc1 & _).
  simpl in Hc1. unfold evicted_cache in Hc1. rewrite He, Hk in Hc1.
  assert (w1 = {| instances := <[a := this (search e query opts
                      {| this := m; PRIMARY_MANAGER_CACHE := cache w |}).1.2]> (instances w);
                  cache := delete key (cache w) |}) as Hw1.
  { subst w1. unfold call_method. rewrite Hm. unfold run_method, settled. simpl.
    by rewrite Hc1. }
  assert (cache w1 !! key = None) as Hmiss.
  { rewrite Hw1. simpl. apply lookup_delete_eq. }
  subst r. rewrite (qmd_miss agentId config other c w1 h Hmiss Hq). simpl.
  rewrite Hw1 at 1 2 3. simpl. rewrite length_insert.
  split; [apply lookup_delete_eq|]. split; [done|]. split; [|split; [done|]].
  - apply lookup_lt_Some in Hm. lia.
  - apply lookup_insert_eq.
Qed.
End world_facts.

(** ** The model at work on concrete inputs *)
Section runs.
#[local] Existing Instance literal_numbers.
#[local] Existing Instance ordinalCompare.
Import SearchManager.

(** The two orders of one configuration have one fingerprint. *)
Lemma fingerprint_witness :
  wf_value config_A = true ∧ same_config config_A config_B = true
  ∧ stableSerialize config_A = stableSerialize config_B
  ∧ buildPrimaryCacheKey "main" "qmd" config_A = buildPrimaryCacheKey "main" "qmd" config_B.
Proof.
  split; [reflexivity|]. split; [reflexivity|].
  apply (fingerprint_ignores_key_order "main" "qmd" config_A config_B);
    [reflexivity | apply ordinalCompare_strict | reflexivity].
Defined.
(** C1 fails for the engram backend: two calls with the same agent and the
    same configuration construct twice and return two instances. *)
Lemma engram_manager_is_not_cached :
  let first := getMemorySearchManager "main" engram_resolved constructors_succeed empty_world in
  let second := getMemorySearchManager "main" engram_resolved constructors_succeed first.1.2 in
  manager first.1.1 = Some (Wrapper 0%nat)
  ∧ manager second.1.1 = Some (Wrapper 1%nat)
  ∧ manager second.1.1 ≠ manager first.1.1
  ∧ constructions (first.2 ++ second.2) = 2%nat.
Proof. repeat split; try reflexivity. discriminate. Qed.

(** The qmd backend on the two orders of one configuration. *)
Lemma qmd_manager_is_cached_witness :
  let first :=
    getMemorySearchManager "main" (qmd_resolved config_A None) constructors_succeed empty_world in
  let second :=
    getMemorySearchManager "main" (qmd_resolved config_B None) constructors_succeed first.1.2 in
  QmdMemoryManager_create constructors_succeed = Resolved (Some 1%nat)
  ∧ manager first.1.1 = Some (Wrapper 0%nat)
  ∧ manager second.1.1 = manager first.1.1
  ∧ (constructions (first.2 ++ second.2) ≤ 1)%nat.
Proof.
  intros first second. split; [reflexivity|]. split; [reflexivity|].
  destruct (qmd_manager_is_cached "main" config_A config_B None None
              constructors_succeed constructors_succeed empty_world 1%nat)
    as (_ & Hsame & _ & _ & Hcount);
    [reflexivity | apply ordinalCompare_strict | reflexivity | reflexivity |].
  split; [exact Hsame | exact Hcount].
Defined.

(** C2 fails for [status]: the instance has degraded, no fallback was
    constructed, and [status] calls the primary. *)
Lemma degraded_status_calls_primary :
  primaryFailed degraded = true
  ∧ fallback degraded = None
  ∧ (run_method Status nothing_works {| this := degraded; PRIMARY_MANAGER_CACHE := ∅ |}).2
    = [Invoke Primary 1%nat CallStatus]
  ∧ uses_primary
      (run_method Status nothing_works {| this := degraded; PRIMARY_MANAGER_CACHE := ∅ |}).2
    = true.
Proof. repeat split. Qed.

(** A search that the primary fails degrades the instance and records the
    error; a [readFile] that the primary fails changes nothing and raises the
    same error; the degraded instance stays degraded when it is closed. *)
Lemma degrade_state_machine_witness :
  let s := {| this := born; PRIMARY_MANAGER_CACHE := ∅ |} in
  let d := {| this := degraded; PRIMARY_MANAGER_CACHE := ∅ |} in
  let searched := run_method (Search "hello" JUndefined) primary_fails s in
  let read := run_method (ReadFile memory_file) read_fails s in
  let closed := run_method Close all_quiet d in
  primaryFailed (this s) = false
  ∧ primaryFailed (this d) = true
  ∧ primaryFailed (this searched.1.2) = true
  ∧ lastError (this searched.1.2) = Some "qmd query failed"
  ∧ read.1.1 = Some "read failed"
  ∧ read.1.2 = s
  ∧ primaryFailed (this closed.1.2) = true.
Proof.
  intros s d searched read closed. split; [reflexivity|]. split; [reflexivity|].
  destruct (degrade_state_machine (Search "hello" JUndefined) primary_fails s)
    as (Hdegrade & _).
  destruct (Hdegrade eq_refl) as [Hiff Herr].
  assert (primaryFailed (this searched.1.2) = true) as Hfailed.
  { apply Hiff. split; [by eexists _, _ | by eexists]. }
  split; [exact Hfailed|]. split; [exact (Herr Hfailed)|].
  destruct (degrade_state_machine (ReadFile memory_file) read_fails s)
    as (_ & Hplain & _).
  destruct (Hplain eq_refl eq_refl) as [Hraise Hsame].
  split; [exact Hraise|]. split; [exact Hsame|].
  destruct (degrade_state_machine Close all_quiet d) as (_ & _ & Hstay & _).
  exact (Hstay eq_refl).
Defined.

(** The degraded instance is closed while a newer instance holds its key. *)
Lemma eviction_at_most_once_witness :
  let calls := [(Search "hello" JUndefined, primary_fails, {[main_key := 0%nat]} : gmap string address)] in
  let newer : gmap string address := {[main_key := 1%nat]} in
  let closing :=
    run_method Close all_quiet
      {| this := (lifetime calls born).1; PRIMARY_MANAGER_CACHE := newer |} in
  primaryFailed (lifetime calls born).1 = true
  ∧ evictions (lifetime calls born).2 = 1%nat
  ∧ PRIMARY_MANAGER_CACHE closing.1.2 = newer
  ∧ (evictions ((lifetime calls born).2 ++ closing.2) ≤ 1)%nat.
Proof.
  intros calls newer closing. split; [reflexivity|]. split; [reflexivity|].
  destruct (eviction_at_most_once "qmd" 1%nat (Some main_key) calls) as [_ Hclose].
  exact (Hclose eq_refl newer all_quiet).
Defined.

(** The health checks of the tests: a live handle, a backend that reports
    itself unavailable, a process that cannot be spawned, and one that
    prints what is not JSON. *)
Lemma create_declines_or_lives_witness :
  Engram.create workspace healthy_process = Resolved (Some (Engram.new_manager workspace))
  ∧ Engram.create workspace unavailable_process = Resolved None
  ∧ Engram.create workspace (Engram.SpawnError "spawn failed") = Resolved None
  ∧ Engram.create workspace garbage_process = Resolved None.
Proof.
  split; [|split; [|split]].
  - destruct (create_declines_or_lives workspace healthy_process)
      as (_ & _ & _ & Hlive & _).
    apply Hlive. eexists. split; [|split].
    + eexists _, _. split; reflexivity.
    + reflexivity.
    + discriminate.
  - destruct (create_declines_or_lives workspace unavailable_process)
      as (_ & Hdeclines & _).
    apply Hdeclines. eapply Engram.backend_unavailable.
    + eexists _, _. split; reflexivity.
    + reflexivity.
  - destruct (create_declines_or_lives workspace (Engram.SpawnError "spawn failed"))
      as (_ & Hdeclines & _).
    apply Hdeclines. constructor.
  - destruct (create_declines_or_lives workspace garbage_process)
      as (_ & Hdeclines & _).
    apply Hdeclines. apply Engram.invalid_payload. reflexivity.
Defined.

(** C5 fails for a health response that is not an object: the request
    completes, there is no [backend_available: false] in it, and [create]
    returns the absent handle all the same. *)
Lemma falsy_health_declines :
  Engram.exec "health" null_process = Resolved JNull
  ∧ Engram.completes_with null_process JNull
  ∧ Engram.backend_available JNull ≠ JBool false
  ∧ Engram.create workspace null_process = Resolved None
  ∧ Engram.exec "health" zero_process = Resolved (JNumber "0")
  ∧ Engram.completes_with zero_process (JNumber "0")
  ∧ Engram.backend_available (JNumber "0") ≠ JBool false
  ∧ Engram.create workspace zero_process = Resolved None.
Proof.
  split; [reflexivity|]. split; [eexists _, _; split; reflexivity|].
  split; [discriminate|]. split; [reflexivity|]. split; [reflexivity|].
  split; [eexists _, _; split; reflexivity|]. split; [discriminate | reflexivity].
Qed.

(** The options of a search reach the primary, which fails, and then the
    fallback. *)
Lemma search_forwards_sessionKey_witness :
  let s := {| this := born; PRIMARY_MANAGER_CACHE := ∅ |} in
  let r := search primary_fails "hello" session_opts s in
  primaryFailed (this s) = false
  ∧ fallback_in_use primary_fails (this s) = Some 2%nat
  ∧ head r.2 = Some (Invoke Primary 1%nat (CallSearch "hello" session_opts))
  ∧ last r.2 = Some (Invoke Fallback 2%nat (CallSearch "hello" session_opts))
  ∧ member session_opts "sessionKey" = JString "whatsapp:direct-chat:123".
Proof.
  intros s r. split; [reflexivity|]. split; [reflexivity|].
  destruct (search_forwards_sessionKey primary_fails "hello" session_opts s)
    as (_ & Hprimary & Hfallback).
  destruct (Hprimary eq_refl) as [Hhead _].
  destruct (Hfallback 2%nat (or_intror eq_refl) eq_refl) as [Hlast _].
  split; [exact Hhead|]. split; [exact Hlast | reflexivity].
Defined.

(** C7 fails for an output that is empty: it is not JSON, and the call
    succeeds with the empty object. *)
Lemma empty_output_is_not_JSON_and_succeeds :
  JSON_parse EmptyString = None
  ∧ Engram.exec "search" (Engram.Closed (Some 0) EmptyString EmptyString)
    = Resolved (JObject []).
Proof. split; reflexivity. Qed.

(** Exit code 2 without a word of error, and exit code 0 with garbage. *)
Lemma exec_failures_witness :
  (2 ≠ 0 ∧ "not json" ≠ EmptyString ∧ JSON_parse "not json" = None)
  ∧ Engram.exec "search" (Engram.Closed (Some 2) "not json" EmptyString)
    = Rejected "engram adapter exited with code 2"
  ∧ Engram.exec "search" garbage_process = Rejected "engram adapter returned invalid JSON".
Proof.
  split; [repeat split; [lia | discriminate]|].
  destruct (exec_failures "search" 2 "not json" EmptyString) as [Hcode Hjson].
  split; [apply Hcode; lia | apply Hjson; [discriminate | reflexivity]].
Defined.



(** C9 at the failing input: the instance has degraded with the error of the
    primary recorded, the factory raises, and the search raises the error of
    the factory. *)
Lemma degraded_search_raises_factory_error_witness :
  let s := {| this := degraded; PRIMARY_MANAGER_CACHE := ∅ |} in
  primaryFailed degraded = true
  ∧ fallback degraded = None
  ∧ lastError degraded = Some "qmd query failed"
  ∧ search factory_raises "hello" JUndefined s
    = (Rejected "builtin index unavailable", s, [FallbackFactory]).
Proof.
  intros s. split; [reflexivity|]. split; [reflexivity|]. split; [reflexivity|].
  exact (degraded_search_raises_factory_error factory_raises "hello" JUndefined s
           "builtin index unavailable" eq_refl eq_refl eq_refl).
Defined.
(** The cache through the life of two instances: the first degrades and
    leaves the cache, the next call constructs a second instance under the
    same key, the first is then closed, and the cache still serves the
    second. *)
Lemma closing_stale_wrapper_keeps_newer :
  let acquire config w :=
    getMemorySearchManager "main" (qmd_resolved config None) constructors_succeed w in
  let w1 := (acquire config_A empty_world).1.2 in
  let failed_search := invoke 0%nat (search primary_fails "hello" JUndefined) w1 in
  let w2 := world_after failed_search in
  let w3 := (acquire config_B w2).1.2 in
  let closed := invoke 0%nat (close all_quiet) w3 in
  let w4 := world_after closed in
  events_of failed_search
  = [Invoke Primary 1%nat (CallSearch "hello" JUndefined);
     Invoke Primary 1%nat CallClose; OnClose main_key; FallbackFactory;
     Invoke Fallback 2%nat (CallSearch "hello" JUndefined)]
  ∧ cache w2 !! main_key = None
  ∧ manager (acquire config_B w2).1.1 = Some (Wrapper 1%nat)
  ∧ (acquire config_B w2).2 = [Create "qmd"]
  ∧ events_of closed = [Invoke Primary 1%nat CallClose; Invoke Fallback 2%nat CallClose]
  ∧ cache w4 !! main_key = Some 1%nat
  ∧ manager (acquire config_A w4).1.1 = Some (Wrapper 1%nat)
  ∧ (acquire config_A w4).2 = [].
Proof. vm_compute. repeat split. Qed.
End runs.

(** ** A collation with a tie *)
Section collation_runs.
#[local] Existing Instance literal_numbers.
#[local] Existing Instance canonicalCompare.
Import SearchManager.

(** C4 fails where [localeCompare] has a tie: the composed and the
    decomposed spelling of one word are two keys that compare as equal, the
    stable sort leaves them in the order in which they were inserted, and
    the two orders of one configuration get two fingerprints, two cache
    keys and two decorators. *)
Lemma collation_tie_changes_fingerprint :
  let first :=
    getMemorySearchManager "main" (qmd_resolved accented_A None) constructors_succeed
      empty_world in
  let second :=
    getMemorySearchManager "main" (qmd_resolved accented_B None) constructors_succeed
      first.1.2 in
  composed_key ≠ decomposed_key
  ∧ localeCompare composed_key decomposed_key = 0
  ∧ wf_value accented_A = true
  ∧ same_config accented_A accented_B = true
  ∧ stableSerialize accented_A ≠ stableSerialize accented_B
  ∧ buildPrimaryCacheKey "main" "qmd" accented_A ≠ buildPrimaryCacheKey "main" "qmd" accented_B
  ∧ manager first.1.1 = Some (Wrapper 0%nat)
  ∧ manager second.1.1 = Some (Wrapper 1%nat)
  ∧ constructions (first.2 ++ second.2) = 2%nat.
Proof.
  intros first second. split; [discriminate|]. split; [reflexivity|].
  split; [reflexivity|]. split; [reflexivity|].
  split; [vm_compute; discriminate|]. split; [vm_compute; discriminate|].
  split; [vm_compute; reflexivity|]. split; vm_compute; reflexivity.
Qed.
End collation_runs.

(** ** More runs on concrete inputs *)
Section more_runs.
#[local] Existing Instance literal_numbers.
#[local] Existing Instance ordinalCompare.
Import SearchManager.

(** Sorting one order of the configuration. *)
Lemma sortValue_keeps_content_witness :
  wf_value config_B = true ∧ same_config config_B (sortValue config_B) = true.
Proof. split; [reflexivity|]. apply (sortValue_keeps_content config_B). reflexivity. Defined.

Lemma sortValue_idempotent_witness :
  wf_value config_B = true
  ∧ sortValue (sortValue config_B) = sortValue config_B
  ∧ stableSerialize (sortValue config_B) = stableSerialize config_B.
Proof.
  split; [reflexivity|].
  apply (sortValue_idempotent config_B); [reflexivity | apply ordinalCompare_strict].
Defined.

(** The keys of the two orders of one configuration. *)
Lemma cache_key_separates_witness :
  colon_free "main" = true ∧ colon_free "qmd" = true
  ∧ buildPrimaryCacheKey "main" "qmd" config_A = buildPrimaryCacheKey "main" "qmd" config_B
  ∧ template (stableSerialize config_A) = template (stableSerialize config_B).
Proof.
  split; [reflexivity|]. split; [reflexivity|]. split; [vm_compute; reflexivity|].
  apply (cache_key_separates "main" "main" "qmd" "qmd" config_A config_B);
    (reflexivity || (vm_compute; reflexivity)).
Defined.

(** The cache after one acquisition. *)
Lemma cache_serves_live_instances_witness :
  cache (history first_acquisition) !! main_key = Some 0%nat
  ∧ ∃ m, instances (history first_acquisition) !! 0%nat = Some m
         ∧ onClose m = Some main_key ∧ cacheEvicted m = false ∧ primaryFailed m = false.
Proof.
  split; [vm_compute; reflexivity|].
  apply (cache_serves_live_instances first_acquisition main_key 0%nat).
  vm_compute; reflexivity.
Defined.

(** The cached decorator of the main agent degrades and is replaced. *)
Lemma degraded_wrapper_is_replaced_witness :
  let w := history first_acquisition in
  let w1 := call_method 0%nat (Search "hello" JUndefined) primary_fails w in
  let r := getMemorySearchManager "main" (qmd_resolved config_A None) constructors_succeed w1 in
  cache w !! main_key = Some 0%nat
  ∧ is_rejected (on_search (of_primary primary_fails)) = true
  ∧ QmdMemoryManager_create constructors_succeed = Resolved (Some 1%nat)
  ∧ cache w1 !! main_key = None
  ∧ manager r.1.1 = Some (Wrapper (length (instances w)))
  ∧ length (instances w) ≠ 0%nat
  ∧ r.2 = [Create "qmd"]
  ∧ cache r.1.2 !! main_key = Some (length (instances w)).
Proof.
  intros w w1 r. split; [vm_compute; reflexivity|]. split; [reflexivity|].
  split; [reflexivity|].
  apply (degraded_wrapper_is_replaced "main" config_A None constructors_succeed w 0%nat
           primary_fails "hello" JUndefined 1%nat);
    [apply consistent_history | vm_compute; reflexivity | reflexivity | reflexivity].
Defined.

(** No provider can be constructed: both backends end at the builtin index
    and cache nothing. *)
Lemma declined_construction_is_not_cached_witness :
  yields_handle (QmdMemoryManager_create constructors_decline) = false
  ∧ yields_handle (EngramMemoryManager_create constructors_decline) = false
  ∧ getMemorySearchManager "main" (qmd_resolved config_A None) constructors_decline empty_world
    = (builtin_result constructors_decline, empty_world, [Create "qmd"; IndexGet])
  ∧ getMemorySearchManager "main" engram_resolved constructors_decline empty_world
    = (builtin_result constructors_decline, empty_world, [Create "engram"; IndexGet]).
Proof.
  split; [reflexivity|]. split; [reflexivity|].
  destruct (declined_construction_is_not_cached "main" config_A None engram_resolved
              constructors_decline empty_world) as [Hq He].
  split; [apply Hq; reflexivity | apply He; [reflexivity | by eexists | reflexivity]].
Defined.

(** The status of the instance that the builtin index serves. *)
Lemma degraded_status_is_annotated_witness :
  let s := {| this := served; PRIMARY_MANAGER_CACHE := ∅ |} in
  primaryFailed served = true
  ∧ wf_value (JObject (underlying_status reporting served)) = true
  ∧ ∃ report,
      (status reporting s).1.1 = Resolved report
      ∧ get_own report "fallback"
        = Some (JObject [("from", JString "qmd"); ("reason", JString "qmd query failed")])
      ∧ get_own report "files" = Some (JNumber "3")
      ∧ ∃ custom,
          get_own report "custom" = Some (JObject custom)
          ∧ get_own custom "fallback"
            = Some (JObject [("disabled", JBool true); ("reason", JString "qmd query failed")])
          ∧ get_own custom "searchMode" = Some (JString "hybrid").
Proof.
  intros s. split; [reflexivity|]. split; [reflexivity|].
  destruct (degraded_status_is_annotated reporting s eq_refl eq_refl)
    as (report & Hr & _ & _ & Hfb & Hkeep & custom & Hc & Hcf & Hck).
  exists report. split; [exact Hr|]. split; [exact Hfb|].
  split; [rewrite Hkeep; [reflexivity | discriminate | discriminate]|].
  exists custom. split; [exact Hc|]. split; [exact Hcf|].
  rewrite Hck; [reflexivity | discriminate].
Defined.

(** The search of the primary raises and the primary cannot be closed: the
    builtin index answers all the same. *)
Lemma failing_search_is_served_by_fallback_witness :
  let s := {| this := born; PRIMARY_MANAGER_CACHE := {[ main_key := 0%nat ]} |} in
  let r := search close_fails "hello" JUndefined s in
  primaryFailed born = false
  ∧ on_search (of_primary close_fails) = Rejected "qmd query failed"
  ∧ r.1.1 = Resolved []
  ∧ this r.1.2
    = with_fallback (Some 2%nat)
        (with_cacheEvicted true
           (with_lastError (Some "qmd query failed") (with_primaryFailed true born)))
  ∧ PRIMARY_MANAGER_CACHE r.1.2 = delete main_key {[ main_key := 0%nat ]}
  ∧ r.2 = [Invoke Primary 1%nat (CallSearch "hello" JUndefined);
           Invoke Primary 1%nat CallClose; OnClose main_key; FallbackFactory;
           Invoke Fallback 2%nat (CallSearch "hello" JUndefined)].
Proof.
  intros s r. split; [reflexivity|]. split; [reflexivity|].
  exact (failing_search_is_served_by_fallback close_fails "hello" JUndefined s
           "qmd query failed" eq_refl eq_refl).
Defined.

(** A primary that cannot be closed keeps its entry in the cache. *)
Lemma close_evicts_unless_it_fails_witness :
  let s := {| this := born; PRIMARY_MANAGER_CACHE := {[ main_key := 0%nat ]} |} in
  on_close (of_primary close_fails) = Some (Rejected "close failed")
  ∧ close close_fails s
    = (Rejected "close failed", s, [Invoke Primary 1%nat CallClose])
  ∧ is_rejected (close all_quiet s).1.1 = false
  ∧ cacheEvicted (this (close all_quiet s).1.2) = true
  ∧ PRIMARY_MANAGER_CACHE (close all_quiet s).1.2 = delete main_key {[ main_key := 0%nat ]}.
Proof.
  intros s. split; [reflexivity|].
  destruct (close_evicts_unless_it_fails close_fails s) as (Hfail & _ & _).
  split; [exact (Hfail "close failed" eq_refl)|].
  destruct (close_evicts_unless_it_fails all_quiet s) as (_ & _ & Hok).
  split; [reflexivity|].
  destruct (Hok eq_refl) as (Hev & Hcache & _). split; [exact Hev | exact Hcache].
Defined.

(** The instance that the builtin index serves, through three more calls. *)
Lemma fallback_is_kept_for_life_witness :
  let calls :=
    [(Search "again" JUndefined, primary_fails, (∅ : gmap string address));
     (ReadFile memory_file, factory_raises, ∅); (Sync JUndefined, nothing_works, ∅)] in
  fallback served = Some 2%nat
  ∧ fallback (lifetime calls served).1 = Some 2%nat
  ∧ factory_calls (lifetime calls served).2 = 0%nat.
Proof.
  intros calls. split; [reflexivity|].
  apply (fallback_is_kept_for_life calls served 2%nat). reflexivity.
Defined.

(** The degraded instance, through calls that a healthy primary could
    answer. *)
Lemma degraded_for_life_witness :
  let calls :=
    [(Search "again" JUndefined, all_quiet, (∅ : gmap string address));
     (ReadFile memory_file, all_quiet, ∅); (Status, all_quiet, ∅);
     (Sync JUndefined, all_quiet, ∅); (Close, all_quiet, ∅)] in
  primaryFailed degraded = true
  ∧ primaryFailed (lifetime calls degraded).1 = true
  ∧ existsb is_primary_data_use (lifetime calls degraded).2 = false.
Proof.
  intros calls. split; [reflexivity|].
  apply (degraded_for_life calls degraded). reflexivity.
Defined.

(** The degraded instance when the factory has nothing to give. *)
Lemma degraded_without_fallback_defaults_witness :
  let s := {| this := degraded; PRIMARY_MANAGER_CACHE := ∅ |} in
  primaryFailed degraded = true ∧ fallback degraded = None
  ∧ fallbackFactory nothing_works = Resolved None
  ∧ readFile nothing_works memory_file s = (Rejected "qmd query failed", s, [FallbackFactory])
  ∧ sync nothing_works JUndefined s = (Resolved (), s, [FallbackFactory])
  ∧ probeEmbeddingAvailability nothing_works s
    = (Resolved {| ok := false; error := Some "qmd query failed" |}, s, [FallbackFactory])
  ∧ probeVectorAvailability nothing_works s = (Resolved false, s, [FallbackFactory]).
Proof.
  intros s. split; [reflexivity|]. split; [reflexivity|]. split; [reflexivity|].
  exact (degraded_without_fallback_defaults nothing_works s memory_file JUndefined
           eq_refl eq_refl eq_refl).
Defined.

(** One acquisition that ends at a builtin index that gives [null]. *)
Lemma acquisition_never_manager_and_error_witness :
  let r :=
    getMemorySearchManager "main" (qmd_resolved config_A None) nothing_available empty_world in
  manager r.1.1 = None
  ∧ error_message r.1.1 = None
  ∧ MemoryIndexManager_get nothing_available = Resolved None
  ∧ r.1.2 = empty_world.
Proof.
  intros r.
  destruct (acquisition_never_manager_and_error "main" (qmd_resolved config_A None)
              nothing_available empty_world) as (_ & _ & Hneither & _).
  assert (manager r.1.1 = None) as Hm by (vm_compute; reflexivity).
  assert (error_message r.1.1 = None) as He by (vm_compute; reflexivity).
  split; [exact Hm|]. split; [exact He|]. exact (Hneither Hm He).
Defined.

(** The fetch response of the tests, and one with a line that has no
    primitive. *)
Lemma readFile_resolves_exactly_when_witness :
  Engram.readFile (Engram.new_manager workspace) memory_file fetch_process
  = Resolved {| text := "line 1" +:+ String (ascii_of_nat 10) "line 2";
                file_path := "MEMORY.md" |}
  ∧ is_rejected
      (Array_join (String (ascii_of_nat 10) EmptyString)
         [JString "line 1"; JObject [("toString", JNumber "1")]]) = true.
Proof.
  destruct (readFile_resolves_exactly_when (Engram.new_manager workspace) memory_file
              fetch_process
              {| text := "line 1" +:+ String (ascii_of_nat 10) "line 2";
                 file_path := "MEMORY.md" |}) as [Hresolves Hjoin].
  split; [|by rewrite Hjoin].
  apply Hresolves.
  eexists _, _. split; [eexists _, _; split; reflexivity|].
  split; [reflexivity|]. split; [reflexivity|]. split; [reflexivity|].
  split; reflexivity.
Defined.

(** A child that does not answer in time, and one that answers garbage. *)
Lemma process_failure_reaches_caller_witness :
  Engram.exec "search" Engram.TimedOut = Rejected "engram adapter timeout (search)"
  ∧ Engram.search (Engram.new_manager workspace) "hello" None Engram.TimedOut
    = Rejected "engram adapter timeout (search)"
  ∧ Engram.readFile (Engram.new_manager workspace) memory_file garbage_process
    = Rejected "engram adapter returned invalid JSON"
  ∧ Engram.sync (Engram.new_manager workspace) search_process = Resolved ().
Proof.
  split; [reflexivity|].
  destruct (process_failure_reaches_caller (Engram.new_manager workspace) "hello" None
              memory_file Engram.TimedOut) as (Hsearch & _).
  split; [exact (Hsearch _ eq_refl)|].
  destruct (process_failure_reaches_caller (Engram.new_manager workspace) "hello" None
              memory_file garbage_process) as (_ & Hread & _).
  split; [exact (Hread _ eq_refl)|].
  destruct (process_failure_reaches_caller (Engram.new_manager workspace) "hello" None
              memory_file search_process) as (_ & _ & _ & Hsync).
  apply Hsync. exists search_response. eexists _, _. split; reflexivity.
Defined.

(** The request of a search with two options. *)
Lemma search_request_fields_witness :
  let request :=
    spread [("workspaceDir", JString (Engram.workspaceDir (Engram.new_manager workspace)))]
           (Engram.search_payload "hello" (Some search_options)) in
  NoDup search_options.*1
  ∧ get_own request "sessionKey" = Some (JString "whatsapp:direct-chat:123")
  ∧ get_own request "maxResults" = Some (JNumber "3")
  ∧ get_own request "query" = Some (JString "hello")
  ∧ get_own request "workspaceDir" = Some (JString "/tmp/workspace")
  ∧ get_own request "minScore" = None.
Proof.
  intros request.
  assert (NoDup search_options.*1) as Hnd by (apply (bool_decide_eq_true_1 (NoDup search_options.*1)); reflexivity).
  split; [exact Hnd|].
  pose proof (search_request_fields (Engram.new_manager workspace) "hello" search_options)
    as Hfields.
  split; [exact (Hfields "sessionKey" Hnd)|]. split; [exact (Hfields "maxResults" Hnd)|].
  split; [exact (Hfields "query" Hnd)|]. split; [exact (Hfields "workspaceDir" Hnd)|].
  exact (Hfields "minScore" Hnd).
Defined.

(** An empty command and a timeout of zero. *)
Lemma created_manager_settings_witness :
  let params :=
    {| Engram.param_workspaceDir := "/tmp/workspace";
       Engram.param_command := Some EmptyString;
       Engram.param_timeoutMs := Some "0" |} in
  let m := Engram.new_manager params in
  Engram.create params healthy_process = Resolved (Some m)
  ∧ Engram.command m = "engram-openclaw-adapter"
  ∧ Engram.timeoutMs m = "0"
  ∧ Engram.workspaceDir m = "/tmp/workspace".
Proof.
  intros params m.
  assert (Engram.create params healthy_process = Resolved (Some m)) as Hm by reflexivity.
  split; [exact Hm|].
  destruct (created_manager_settings params healthy_process m Hm)
    as (_ & Hdir & _ & Hdefault & Htimeout & _).
  split; [apply Hdefault; by right|]. split; [by apply Htimeout | exact Hdir].
Defined.
End more_runs.
